(** * gotopy: a line-numbered GOTO/GOSUB interpreter

    Shallow embedding of [gotopy2/gotopy.py] and the properties of its
    execution engine.

    A program is a Python dict from line numbers to callables
    [stmt(globals, runtime)].  The callables are embedded as trees of the
    calls they make on their two arguments (the engine handle and dict
    references), the engine objects and the dicts live in a store, so that
    sharing by reference between a parent run and a nested run is modelled
    as such. *)

From stdpp Require Import gmap strings list sorting.

Local Open Scope Z_scope.
Local Open Scope nat_scope.

(** ** Python values, references and exceptions *)

Inductive value : Type :=
| VNone
| VBool (b : bool)
| VInt (n : Z)
| VStr (s : string).

(** A shared-state store is a Python dict with string keys. *)
Abbreviation dict := (gmap string value).

(** References to dicts and to [Runtime] objects: positions in the store. *)
Abbreviation loc := nat (only parsing).
Abbreviation eid := nat (only parsing).

Inductive exn : Type :=
| NoSuchLine (line : Z)              (* ValueError("No such line: ...") *)
| ReturnWithoutGosub                 (* RuntimeError("RETURN without GOSUB") *)
| CouldNotLoadSpec (filename : string)  (* ImportError *)
| LoaderIsNone (filename : string)      (* ImportError *)
| MustDefineProgram (filename : string) (* ValueError, no 'program' *)
| NotInList (line : Z)               (* ValueError of list.index *)
| IndexOutOfRange (i : nat)          (* IndexError of self.lines[i] *)
| NoSuchKey (line : Z)               (* KeyError of self.program[line] *)
| UserError (tag : string)           (* an exception raised by a step *)
| BadRef (l : nat)                   (* a dict reference never allocated *)
| BadHandle (e : nat).               (* an engine handle never allocated *)

(** ** Steps

    The body of a step, as the sequence of calls it makes: on its engine
    handle [r] ([Goto], [Gosub], [Return_], [Halt], [RunFile]), on dicts it
    holds a reference to ([SetItem], [ReadDict], [NewDict]), and Python's
    [raise] and [try]/[except].  [ReadDict] lets the rest of the body depend
    on what the dict holds ([if g["n"] < 3: ...]).  In [TryExcept],
    [catches] says which exceptions the [except] clause matches; the others
    propagate. *)

Inductive stmt : Type :=
| Skip
| Goto (line : Z) (k : stmt)
| Gosub (line : Z) (k : stmt)
| Return_ (k : stmt)
| Halt (k : stmt)
| RunFile (filename : string) (globals_dict : option loc) (k : stmt)
| SetItem (d : loc) (key : string) (v : value) (k : stmt)
| ReadDict (d : loc) (k : dict → stmt)
| NewDict (k : loc → stmt)
| Raise (tag : string)
| TryExcept (body : stmt) (catches : exn → bool) (handler : exn → stmt)
    (k : stmt).

(** A step is a callable of the shared state [g]; the engine handle is the
    engine that runs it. *)
Abbreviation step := (nat → stmt) (only parsing).

(** [ProgramType = Dict[int, Callable[[Dict[str, Any], "Runtime"], None]]] *)
Abbreviation ProgramType := (gmap Z (nat → stmt)).

(** What the import machinery of [run_file] yields for a file name. *)
Inductive load_result : Type :=
| NoSpec                       (* spec_from_file_location returned None *)
| NoLoader                     (* spec.loader is None *)
| NoProgram                    (* the module has no attribute 'program' *)
| Loaded (p : ProgramType).

(** ** The engine object *)

Record Runtime : Type := mkRuntime {
  program : ProgramType;
  lines : list Z;
  line_idx : nat;
  stack : list (option Z);
  globals : loc;
  parent : option eid;
  _goto_line : option Z;
  _returning : bool;
  _halted : bool
}.

Definition set_line_idx (i : nat) (rt : Runtime) : Runtime :=
  mkRuntime (program rt) (lines rt) i (stack rt) (globals rt) (parent rt)
            (_goto_line rt) (_returning rt) (_halted rt).

Definition set_stack (s : list (option Z)) (rt : Runtime) : Runtime :=
  mkRuntime (program rt) (lines rt) (line_idx rt) s (globals rt) (parent rt)
            (_goto_line rt) (_returning rt) (_halted rt).

Definition set_goto_line (g : option Z) (rt : Runtime) : Runtime :=
  mkRuntime (program rt) (lines rt) (line_idx rt) (stack rt) (globals rt)
            (parent rt) g (_returning rt) (_halted rt).

Definition set_returning (b : bool) (rt : Runtime) : Runtime :=
  mkRuntime (program rt) (lines rt) (line_idx rt) (stack rt) (globals rt)
            (parent rt) (_goto_line rt) b (_halted rt).

Definition set_halted (b : bool) (rt : Runtime) : Runtime :=
  mkRuntime (program rt) (lines rt) (line_idx rt) (stack rt) (globals rt)
            (parent rt) (_goto_line rt) (_returning rt) b.

(** [sorted(program)]: the keys of the dict in ascending order. *)
Definition sorted (p : ProgramType) : list Z :=
  merge_sort Z.le (map fst (map_to_list p)).

(** [lines.index(x)]: the first position of [x], or ValueError. *)
Fixpoint list_index (x : Z) (l : list Z) : option nat :=
  match l with
  | [] => None
  | y :: l' => if bool_decide (y = x) then Some 0
               else option_map S (list_index x l')
  end.

(** ** The control operations, on one engine object

    Each returns the exception it raises, if any, and the object as the
    call leaves it. *)

Definition goto (line : Z) (rt : Runtime) : option exn * Runtime :=
  match program rt !! line with
  | None => (Some (NoSuchLine line), rt)
  | Some _ => (None, set_goto_line (Some line) rt)
  end.

Definition gosub (line : Z) (rt : Runtime) : option exn * Runtime :=
  match program rt !! line with
  | None => (Some (NoSuchLine line), rt)
  | Some _ =>
      let next_line :=
        if bool_decide (line_idx rt + 1 < length (lines rt))
        then lines rt !! (line_idx rt + 1)
        else None in
      (None, set_goto_line (Some line) (set_stack (stack rt ++ [next_line]) rt))
  end.

Definition return_ (rt : Runtime) : option exn * Runtime :=
  match stack rt with
  | [] => (Some ReturnWithoutGosub, rt)
  | _ :: _ =>
      let ret := default None (last (stack rt)) in
      let rt1 := set_stack (removelast (stack rt)) rt in
      let rt2 := match ret with
                 | None => set_halted true rt1
                 | Some l => set_goto_line (Some l) rt1
                 end in
      (None, set_returning true rt2)
  end.

Definition halt (rt : Runtime) : option exn * Runtime :=
  (None, set_halted true rt).

(** ** What the loop of [run] does once the step has returned *)

Inductive resolution : Type :=
| Break                      (* the loop is left *)
| Continue (rt : Runtime)    (* the loop goes on, at [line_idx rt] *)
| Fault (e : exn).

(** The last part of the loop body: [if not jumped: ...]. *)
Definition advance (jumped : bool) (rt : Runtime) : resolution :=
  if jumped then Continue rt
  else if bool_decide (line_idx rt + 1 < length (lines rt))
       then Continue (set_line_idx (line_idx rt + 1) rt)
       else Break.

(** [self.line_idx = self.lines.index(self._goto_line); jumped = True] *)
Definition jump_to (l : Z) (rt : Runtime) : resolution :=
  match list_index l (lines rt) with
  | None => Fault (NotInList l)
  | Some i => advance true (set_line_idx i rt)
  end.

(** Lines 99 to 117 of the source. *)
Definition resolve (rt : Runtime) : resolution :=
  if _halted rt then Break
  else match _goto_line rt with
       | Some l => jump_to l rt
       | None =>
           if _returning rt then
             if _halted rt then Break
             else match _goto_line rt with
                  | Some l => jump_to l rt
                  | None => Break
                  end
           else advance false rt
       end.

(** The same with the [elif self._returning:] branch taken out. *)
Definition resolve_no_return_branch (rt : Runtime) : resolution :=
  if _halted rt then Break
  else match _goto_line rt with
       | Some l => jump_to l rt
       | None => advance false rt
       end.

(** [resolve] with an arbitrary body in the place of the [elif] branch. *)
Definition resolve_with_branch (branch : Runtime → resolution)
    (rt : Runtime) : resolution :=
  if _halted rt then Break
  else match _goto_line rt with
       | Some l => jump_to l rt
       | None => if _returning rt then branch rt else advance false rt
       end.

(** Several control operations invoked one after the other, as a step body
    does; the first that raises ends the sequence. *)
Inductive control : Type :=
| CGoto (line : Z)
| CGosub (line : Z)
| CReturn
| CHalt.

Definition invoke (c : control) : Runtime → option exn * Runtime :=
  match c with
  | CGoto line => goto line
  | CGosub line => gosub line
  | CReturn => return_
  | CHalt => halt
  end.

Fixpoint invoke_all (cs : list control) (rt : Runtime)
    : option exn * Runtime :=
  match cs with
  | [] => (None, rt)
  | c :: cs' =>
      match invoke c rt with
      | (None, rt') => invoke_all cs' rt'
      | (Some x, rt') => (Some x, rt')
      end
  end.

(** The step body that invokes these operations and nothing else. *)
Definition body_of (cs : list control) : stmt :=
  foldr (λ c k, match c with
                | CGoto line => Goto line k
                | CGosub line => Gosub line k
                | CReturn => Return_ k
                | CHalt => Halt k
                end) Skip cs.

(** The return address in the words of the specification: the least line
    of the program above [C], or the sentinel when [C] is the last line. *)
Definition following_line (p : ProgramType) (C : Z) (ret : option Z) : Prop :=
  match ret with
  | Some n => is_Some (p !! n) ∧ (C < n)%Z ∧
              ∀ m, is_Some (p !! m) → (C < m)%Z → (n ≤ m)%Z
  | None => ∀ m, is_Some (p !! m) → (m ≤ C)%Z
  end.

(** ** The store *)

Record World : Type := mkWorld {
  dicts : list dict;             (* the dict objects *)
  engines : list Runtime;        (* the Runtime objects *)
  visited : list (eid * Z)       (* ghost: the steps called so far, by whom *)
}.

Definition set_dicts (d : list dict) (w : World) : World :=
  mkWorld d (engines w) (visited w).

Definition set_engines (es : list Runtime) (w : World) : World :=
  mkWorld (dicts w) es (visited w).

Definition visit (e : eid) (line : Z) (w : World) : World :=
  mkWorld (dicts w) (engines w) (visited w ++ [(e, line)]).

(** ** Computations on the store that may raise *)

Inductive result (A : Type) : Type :=
| Done (a : A)
| Raised (x : exn)
| OutOfFuel.
Arguments Done {A} a.
Arguments Raised {A} x.
Arguments OutOfFuel {A}.

Definition M (A : Type) : Type := World → result A * World.

Definition ret {A} (a : A) : M A := λ w, (Done a, w).

Definition raise {A} (x : exn) : M A := λ w, (Raised x, w).

Definition bind {A B} (c : M A) (k : A → M B) : M B :=
  λ w, match c w with
       | (Done a, w1) => k a w1
       | (Raised x, w1) => (Raised x, w1)
       | (OutOfFuel, w1) => (OutOfFuel, w1)
       end.

Notation "'do' x <- c ; k" := (bind c (λ x, k))
  (at level 10, x name, c at level 100, k at level 200).
Notation "c ;; k" := (bind c (λ _, k))
  (at level 100, k at level 200, right associativity).

(** A method call on the engine object [e]. *)
Definition call (e : eid) (op : Runtime → option exn * Runtime) : M unit :=
  λ w, match engines w !! e with
       | None => (Raised (BadHandle e), w)
       | Some rt =>
           let w1 := set_engines (<[e := (op rt).2]> (engines w)) w in
           match (op rt).1 with
           | None => (Done tt, w1)
           | Some x => (Raised x, w1)
           end
       end.

Definition get_engine (e : eid) : M Runtime :=
  λ w, match engines w !! e with
       | None => (Raised (BadHandle e), w)
       | Some rt => (Done rt, w)
       end.

Definition get_dict (d : loc) : M dict :=
  λ w, match dicts w !! d with
       | None => (Raised (BadRef d), w)
       | Some m => (Done m, w)
       end.

(** [d[key] = v] *)
Definition setitem (d : loc) (key : string) (v : value) : M unit :=
  do m <- get_dict d;
  λ w, (Done tt, set_dicts (<[d := <[key := v]> m]> (dicts w)) w).

(** A dict display [{}]: a new object. *)
Definition new_dict : M loc :=
  λ w, (Done (length (dicts w)), set_dicts (dicts w ++ [∅]) w).

(** [Runtime.__init__] *)
Definition Runtime_init (prog : ProgramType) (globals_dict : option loc)
    (parent : option eid) : M eid :=
  do g <- match globals_dict with
          | Some l => ret l
          | None => new_dict
          end;
  λ w, (Done (length (engines w)),
        set_engines (engines w ++
          [mkRuntime prog (sorted prog) 0 [] g parent None false false]) w).

Section Engine.

(** The loader that [run_file] relies on. *)
Variable load : string → load_result.

(** [Runtime.run_file]; [run] is the method [run] of the new engine. *)
Definition run_file (run : eid → M unit) (e : eid) (filename : string)
  (globals_dict : option loc) : M unit :=
match load filename with
| NoSpec => raise (CouldNotLoadSpec filename)
| NoLoader => raise (LoaderIsNone filename)
| NoProgram => raise (MustDefineProgram filename)
| Loaded prog =>
    do self <- get_engine e;
    (* globals_dict or self.globals *)
    do g <- match globals_dict with
            | None => ret (globals self)
            | Some l =>
                do m <- get_dict l;
                if bool_decide (size m ≠ 0) then ret l
                else ret (globals self)
            end;
    do sub_runtime <- Runtime_init prog (Some g) (Some e);
    run sub_runtime
end.

(** Calling a step body with the engine handle [e]. *)
Fixpoint exec_stmt (run : eid → M unit) (e : eid) (s : stmt) : M unit :=
match s with
| Skip => ret tt
| Goto line k => call e (goto line) ;; exec_stmt run e k
| Gosub line k => call e (gosub line) ;; exec_stmt run e k
| Return_ k => call e return_ ;; exec_stmt run e k
| Halt k => call e halt ;; exec_stmt run e k
| RunFile filename globals_dict k =>
    run_file run e filename globals_dict ;; exec_stmt run e k
| SetItem d key v k => setitem d key v ;; exec_stmt run e k
| ReadDict d k => do m <- get_dict d; exec_stmt run e (k m)
| NewDict k => do l <- new_dict; exec_stmt run e (k l)
| Raise tag => raise (UserError tag)
| TryExcept body catches handler k =>
    λ w, match exec_stmt run e body w with
         | (Done _, w1) => exec_stmt run e k w1
         | (Raised x, w1) =>
             if catches x
             then (exec_stmt run e (handler x) ;; exec_stmt run e k) w1
             else (Raised x, w1)
         | (OutOfFuel, w1) => (OutOfFuel, w1)
         end
end.

(** [self.line_idx = 0], then the loop. *)
Definition start (loop : eid → M unit) (e : eid) : M unit :=
call e (λ rt, (None, set_line_idx 0 rt)) ;; loop e.

(** [self._goto_line = None; self._returning = False] *)
Definition reset_signals (rt : Runtime) : option exn * Runtime :=
(None, set_returning false (set_goto_line None rt)).

(** The [while] loop of [run]; every turn of the loop takes one unit of
  fuel, and a nested run gets what is left. *)
Fixpoint run_loop (res : Runtime → resolution) (fuel : nat) (e : eid)
  : M unit :=
match fuel with
| 0 => λ w, (OutOfFuel, w)
| S n =>
    do self <- get_engine e;
    if negb (bool_decide (line_idx self < length (lines self))) then ret tt
    else if _halted self then ret tt
    else
      match lines self !! line_idx self with
      | None => raise (IndexOutOfRange (line_idx self))
      | Some line =>
          call e reset_signals ;;
          match program self !! line with
          | None => raise (NoSuchKey line)
          | Some stmt =>
              (λ w, (Done tt, visit e line w)) ;;
              exec_stmt (start (run_loop res n)) e (stmt (globals self)) ;;
              do self' <- get_engine e;
              match res self' with
              | Break => ret tt
              | Fault x => raise x
              | Continue rt => call e (λ _, (None, rt)) ;; run_loop res n e
              end
          end
      end
end.

(** [Runtime.run], for a given resolution of the signals. *)
Definition run_with (res : Runtime → resolution) (fuel : nat)
  : eid → M unit :=
start (run_loop res fuel).

(** [Runtime.run] *)
Definition run (fuel : nat) : eid → M unit :=
run_with resolve fuel.

(** [run_program] *)
Definition run_program (fuel : nat) (prog : ProgramType)
  (globals_dict : option loc) : M loc :=
do rt <- Runtime_init prog globals_dict None;
run fuel rt ;;
do self <- get_engine rt;
ret (globals self).

End Engine.

(** ** Programs of the test suite and of the examples *)

Definition empty_world : World := mkWorld [] [] [].

(** No file can be loaded. *)
Definition no_files : string → load_result := λ _, NoSpec.

(** The engine object that [Runtime(prog, g)] makes. *)
Definition fresh_runtime (prog : ProgramType) (g : loc) : Runtime :=
  mkRuntime prog (sorted prog) 0 [] g None None false false.

(** [g.update(key=f(g.get(key)))] *)
Definition update (g : loc) (key : string) (f : option value → value)
    (k : stmt) : stmt :=
  ReadDict g (λ m, SetItem g key (f (m !! key)) k).

Definition times_ten (o : option value) : value :=
  match o with
  | Some (VInt n) => VInt (n * 10)
  | _ => VNone
  end.

(** test_sequential, without the arithmetic *)
Definition prog_sequential : ProgramType :=
  list_to_map [
    (10%Z, λ g, SetItem g "x" (VInt 1) Skip);
    (20%Z, λ g, SetItem g "x" (VInt 2) Skip);
    (30%Z, λ g, Skip)].

(** test_gosub_return *)
Definition prog_gosub_return : ProgramType :=
  list_to_map [
    (10%Z, λ g, SetItem g "x" (VInt 1) Skip);
    (20%Z, λ g, Gosub 50 Skip);
    (30%Z, λ g, SetItem g "done" (VBool true) (Halt Skip));
    (50%Z, λ g, update g "x" times_ten Skip);
    (60%Z, λ g, Return_ Skip)].

(** A subroutine called from the last line of the program. *)
Definition prog_gosub_last : ProgramType :=
  list_to_map [
    (10%Z, λ g, Goto 30 Skip);
    (20%Z, λ g, SetItem g "sub" (VBool true) (Return_ Skip));
    (30%Z, λ g, Gosub 20 Skip)].

(** A step that calls [r.halt()] and then [r.goto(20)]. *)
Definition prog_halt_goto : ProgramType :=
  list_to_map [
    (10%Z, λ g, Halt (Goto 20 Skip));
    (20%Z, λ g, SetItem g "x" (VInt 1) Skip)].

(** The sub-program of test_nested_run_file. *)
Definition subprog : ProgramType :=
  list_to_map [
    (100%Z, λ g, SetItem g "msg" (VStr "hello from subprog") Skip);
    (110%Z, λ g, Halt Skip)].

Definition subprog_file : string → load_result :=
  λ f, if bool_decide (f = "subprog.py") then Loaded subprog else NoSpec.

(** test_nested_run_file: [r.run_file(subprog_path, g)], then line 20. *)
Definition prog_nested : ProgramType :=
  list_to_map [
    (10%Z, λ g, RunFile "subprog.py" (Some g) Skip);
    (20%Z, λ g, SetItem g "done" (VBool true) (Halt Skip))].

(** A parent that hands the nested run a store of its own, a new empty
    dict: [r.run_file(subprog_path, {})]. *)
Definition prog_isolated : ProgramType :=
  list_to_map [
    (10%Z, λ g, NewDict (λ d, RunFile "subprog.py" (Some d) Skip));
    (20%Z, λ g, SetItem g "done" (VBool true) (Halt Skip))].

(** ** Predicates of the statements *)

(** The engine object that [run_file] makes for [prog], bound to the dict
    [g], with parent [e]. *)
Definition sub_runtime (prog : ProgramType) (g : loc) (e : eid) : Runtime :=
  mkRuntime prog (sorted prog) 0 [] g (Some e) None false false.

(** The store with one more engine object. *)
Definition with_new_engine (rt : Runtime) (w : World) : World :=
  set_engines (engines w ++ [rt]) w.

(** What [globals_dict or self.globals] evaluates to in [run_file], for the
    calling engine object [rt]; [None] when the reference is not one of the
    store. *)
Definition chosen_globals (w : World) (rt : Runtime) (gd : option loc)
    : option loc :=
  match gd with
  | None => Some (globals rt)
  | Some l =>
      match dicts w !! l with
      | None => None
      | Some m => Some (if bool_decide (size m ≠ 0) then l else globals rt)
      end
  end.

(** The store when the step of [line] is called by the loop of engine [e],
    whose object was [self] at the head of the loop: the signals are reset
    and the call is recorded. *)
Definition begin_step (e : eid) (line : Z) (self : Runtime) (w : World)
    : World :=
  visit e line (set_engines (<[e := (reset_signals self).2]> (engines w)) w).

(** The engine [e] of the store [w] has its halt flag set. *)
Definition halt_requested (e : eid) (w : World) : Prop :=
  _halted <$> engines w !! e = Some true.

(** From [w] to [w'] no engine object was lost, and those of [w] other
    than [e] are as they were. *)
Definition others_kept (e : eid) (w w' : World) : Prop :=
  length (engines w) ≤ length (engines w') ∧
  ∀ e', e' < length (engines w) → e' ≠ e →
        engines w' !! e' = engines w !! e'.

(** Moreover the engine [e], when [w] has it, has moved along [R]. *)
Definition evolves (R : Runtime → Runtime → Prop) (e : eid)
    (w w' : World) : Prop :=
  others_kept e w w' ∧
  ∀ rt, engines w !! e = Some rt →
        ∃ rt', engines w' !! e = Some rt' ∧ R rt rt'.

(** Two states of an engine object with the same program, line table,
    shared-state reference and parent. *)
Definition same_binding (a b : Runtime) : Prop :=
  program b = program a ∧ lines b = lines a ∧
  globals b = globals a ∧ parent b = parent a.

(** The exceptions other than the one of [lines.index]. *)
Definition not_index_error (x : exn) : Prop := ∀ l, x ≠ NotInList l.

Definition no_index_error {A} (r : result A) : Prop :=
  ∀ l, r ≠ Raised (NotInList l).

(** The invariant of an engine object: the line table is the sorted keys
    of the program, every return address on the call stack that is not the
    sentinel is a line of the program, and so is a pending jump target. *)
Definition wf_runtime (rt : Runtime) : Prop :=
  lines rt = sorted (program rt) ∧
  (∀ l, Some l ∈ stack rt → is_Some (program rt !! l)) ∧
  (∀ l, _goto_line rt = Some l → is_Some (program rt !! l)).

(** All the engine objects from position [base] on satisfy it. *)
Definition wf_from (base : nat) (w : World) : Prop :=
  ∀ e rt, base ≤ e → engines w !! e = Some rt → wf_runtime rt.

(** When the returning flag is set, a halt was requested or a jump is
    pending. *)
Definition return_resolved (rt : Runtime) : Prop :=
  _returning rt = true → _halted rt = true ∨ is_Some (_goto_line rt).

(** A step body that makes no call on its engine handle. *)
Fixpoint straight (s : stmt) : Prop :=
  match s with
  | Skip => True
  | Goto _ _ | Gosub _ _ | Return_ _ | Halt _ | RunFile _ _ _ => False
  | SetItem _ _ _ k => straight k
  | ReadDict _ k => ∀ m, straight (k m)
  | NewDict k => ∀ l, straight (k l)
  | Raise _ => True
  | TryExcept body _ handler k =>
      straight body ∧ (∀ x, straight (handler x)) ∧ straight k
  end.

(** A step body that makes none of the calls [goto], [gosub], [return_]
    and [halt]; it may start nested runs. *)
Fixpoint no_transfer (s : stmt) : Prop :=
  match s with
  | Skip => True
  | Goto _ _ | Gosub _ _ | Return_ _ | Halt _ => False
  | RunFile _ _ k => no_transfer k
  | SetItem _ _ _ k => no_transfer k
  | ReadDict _ k => ∀ m, no_transfer (k m)
  | NewDict k => ∀ l, no_transfer (k l)
  | Raise _ => True
  | TryExcept body _ handler k =>
      no_transfer body ∧ (∀ x, no_transfer (handler x)) ∧ no_transfer k
  end.

(** The lines whose steps the engine [e] has called, in the order of the
    calls. *)
Definition steps_of (e : eid) (vs : list (eid * Z)) : list Z :=
  omap (λ p, if bool_decide (p.1 = e) then Some p.2 else None) vs.

(** From [w] to [w'] no engine object was lost and the steps called in
    between were called by the engine [c], if given, or by engines made in
    between. *)
Definition grows (c : option eid) (w w' : World) : Prop :=
  length (engines w) ≤ length (engines w') ∧
  ∃ ext, visited w' = visited w ++ ext ∧
         ∀ p, p ∈ ext → Some p.1 = c ∨ length (engines w) ≤ p.1.

(** ** Further programs *)

(** A sub-program whose first line returns without a call. *)
Definition bad_subprog : ProgramType :=
  list_to_map [(10%Z, λ g, Return_ Skip)].

Definition bad_subprog_file : string → load_result :=
  λ f, if bool_decide (f = "bad.py") then Loaded bad_subprog else NoSpec.

(** A parent that runs it and then sets a key. *)
Definition prog_runs_bad : ProgramType :=
  list_to_map [
    (10%Z, λ g, SetItem g "before" (VBool true) (RunFile "bad.py" None Skip));
    (20%Z, λ g, SetItem g "after" (VBool true) Skip)].

(** [g.get(key) + 1], and 1 when the key is missing. *)
Definition count_up (o : option value) : value :=
  match o with
  | Some (VInt n) => VInt (n + 1)
  | _ => VInt 1
  end.

(** test_goto_loop with a jump of line 20 to itself instead of the halt. *)
Definition prog_spin : ProgramType :=
  list_to_map [
    (10%Z, λ g, update g "n" count_up Skip);
    (20%Z, λ g, Goto 20 Skip)].

Definition plus_five (o : option value) : value :=
  match o with
  | Some (VInt n) => VInt (n + 5)
  | _ => VNone
  end.

(** test_goto *)
Definition prog_goto : ProgramType :=
  list_to_map [
    (10%Z, λ g, SetItem g "x" (VInt 1) Skip);
    (20%Z, λ g, Goto 40 Skip);
    (30%Z, λ g, SetItem g "x" (VInt 999) Skip);
    (40%Z, λ g, update g "x" plus_five Skip)].

(** test_nested_gosubs *)
Definition prog_nested_gosubs : ProgramType :=
  list_to_map [
    (10%Z, λ g, Gosub 100 Skip);
    (20%Z, λ g, Halt Skip);
    (100%Z, λ g, Gosub 200 Skip);
    (110%Z, λ g, Return_ Skip);
    (200%Z, λ g, Return_ Skip)].

(** test_goto_loop: [g["n"] = g["n"] + 1], then
    [if g["n"] < 3: r.goto(10) else: r.halt()]; a missing key raises. *)
Definition prog_goto_loop : ProgramType :=
  list_to_map [
    (10%Z, λ g, ReadDict g (λ m,
             match m !! "n" with
             | Some (VInt n) => SetItem g "n" (VInt (n + 1)) Skip
             | _ => Raise "KeyError"
             end));
    (20%Z, λ g, ReadDict g (λ m,
             match m !! "n" with
             | Some (VInt n) => if bool_decide (n < 3)%Z then Goto 10 Skip
                                else Halt Skip
             | _ => Raise "KeyError"
             end))].

(** test_return_without_gosub *)
Definition prog_return_alone : ProgramType :=
  list_to_map [(10%Z, λ g, Return_ Skip)].

(** ** The walk over the line table

    What a program without transfers of control is to do, as a loop over
    the line table instead of the loop of [run] over the instruction
    pointer and the signals: for each line of [ls], in that order, the
    signals are reset and the step of the line is called once; between two
    lines the instruction pointer moves on by one.  A line takes one unit
    of fuel, and a nested run gets what is left, as in [run_loop]. *)
Fixpoint for_each_line (load : string → load_result) (fuel : nat) (e : eid)
    (ls : list Z) {struct ls} : M unit :=
  match ls with
  | [] => ret tt
  | line :: rest =>
      match fuel with
      | 0 => λ w, (OutOfFuel, w)
      | S n =>
          do self <- get_engine e;
          call e reset_signals ;;
          match program self !! line with
          | None => raise (NoSuchKey line)
          | Some stmt =>
              (λ w, (Done tt, visit e line w)) ;;
              exec_stmt load (run load n) e (stmt (globals self)) ;;
              match rest with
              | [] => ret tt
              | _ :: _ =>
                  call e (λ rt, (None, set_line_idx (line_idx rt + 1) rt)) ;;
                  for_each_line load n e rest
              end
          end
      end
  end.

(** [run_program] with that walk over [sorted(program)] in the place of
    [rt.run()]. *)
Definition visit_all_lines (load : string → load_result) (fuel : nat)
    (prog : ProgramType) (globals_dict : option loc) : M loc :=
  do rt <- Runtime_init prog globals_dict None;
  for_each_line load fuel rt (sorted prog) ;;
  do self <- get_engine rt;
  ret (globals self).

(** A step body that only reads and writes the shared state [g] it was
    called with (and may make dicts of its own): it makes no call on the
    engine, starts no nested run and raises nothing. *)
Fixpoint state_only (g : loc) (s : stmt) : Prop :=
  match s with
  | Skip => True
  | SetItem d _ _ k => d = g ∧ state_only g k
  | ReadDict d k => d = g ∧ ∀ m, state_only g (k m)
  | NewDict k => ∀ l, state_only g (k l)
  | TryExcept body _ _ k => state_only g body ∧ state_only g k
  | Goto _ _ | Gosub _ _ | Return_ _ | Halt _ | RunFile _ _ _ | Raise _ =>
      False
  end.

(** ** Predicates of the further properties *)

(** The dict that [Runtime.__init__] binds: the one given, or a new one. *)
Definition given_globals (gd : option loc) (w : World) : loc :=
  match gd with
  | Some l => l
  | None => length (dicts w)
  end.

(** The store when [run_program] has made its engine object. *)
Definition initial_store (prog : ProgramType) (gd : option loc) (w : World)
    : World :=
  with_new_engine (fresh_runtime prog (given_globals gd w))
    match gd with
    | Some _ => w
    | None => set_dicts (dicts w ++ [∅]) w
    end.

(** The exceptions of the subscripts of [run] itself ([lines.index],
    [lines[line_idx]], [program[line]]) and of a handle that is not of the
    store. *)
Definition is_engine_fault (x : exn) : bool :=
  match x with
  | NotInList _ | IndexOutOfRange _ | NoSuchKey _ | BadHandle _ => true
  | _ => false
  end.

Definition no_engine_fault {A} (r : result A) : Prop :=
  ∀ x, r = Raised x → is_engine_fault x = false.

(** The invariant of the engines from [base] on, all of them of the
    store. *)
Definition sound_from (base : nat) (e : eid) (w : World) : Prop :=
  wf_from base w ∧ e < length (engines w).

(** What [run_file] raises for what the import machinery yields. *)
Definition load_error (filename : string) (r : load_result) : option exn :=
  match r with
  | NoSpec => Some (CouldNotLoadSpec filename)
  | NoLoader => Some (LoaderIsNone filename)
  | NoProgram => Some (MustDefineProgram filename)
  | Loaded _ => None
  end.

(** A step body that writes to no dict but [g], the shared state it was
    called with, and hands no other dict to a nested run. *)
Fixpoint confined (g : loc) (s : stmt) : Prop :=
  match s with
  | Skip | Raise _ => True
  | Goto _ k | Gosub _ k | Return_ k | Halt k => confined g k
  | RunFile _ gd k => (gd = None ∨ gd = Some g) ∧ confined g k
  | SetItem d _ _ k => d = g ∧ confined g k
  | ReadDict _ k => ∀ m, confined g (k m)
  | NewDict k => ∀ l, confined g (k l)
  | TryExcept body _ handler k =>
      confined g body ∧ (∀ x, confined g (handler x)) ∧ confined g k
  end.

Definition confined_program (p : ProgramType) : Prop :=
  ∀ line s g, p !! line = Some s → confined g (s g).

Definition confined_files (load : string → load_result) : Prop :=
  ∀ f p, load f = Loaded p → confined_program p.

(** From [w] to [w'] no dict was lost and those of [w] other than [g] are
    as they were. *)
Definition dicts_kept (g : loc) (w w' : World) : Prop :=
  length (dicts w) ≤ length (dicts w') ∧
  ∀ d, d < length (dicts w) → d ≠ g → dicts w' !! d = dicts w !! d.

(** A program whose line [C] jumps to itself. *)
Definition jumps_to_itself (p : ProgramType) (C : Z) : Prop :=
  ∃ s, p !! C = Some s ∧ ∀ g, s g = Goto C Skip.

(** * Properties *)

(** ** The line table *)

Lemma sorted_elem_of (p : ProgramType) (l : Z) :
  l ∈ sorted p ↔ is_Some (p !! l).
Proof.
  unfold sorted. rewrite merge_sort_Permutation.
  rewrite list_elem_of_fmap. split.
  - intros [[k v] [-> Hkv]]. apply elem_of_map_to_list in Hkv. eauto.
  - intros [v Hv]. exists (l, v). split; [done|].
    by apply elem_of_map_to_list.
Qed.

Lemma sorted_NoDup (p : ProgramType) : NoDup (sorted p).
Proof.
  unfold sorted. rewrite merge_sort_Permutation.
  apply NoDup_fst_map_to_list.
Qed.

Lemma sorted_StronglySorted (p : ProgramType) :
  StronglySorted Z.le (sorted p).
Proof. apply StronglySorted_merge_sort; apply _. Qed.

Lemma sorted_strictly_ascending (p : ProgramType) :
  StronglySorted Z.lt (sorted p).
Proof.
  pose proof (sorted_StronglySorted p) as Hs.
  pose proof (sorted_NoDup p) as Hnd.
  induction Hs as [|a l Hs IH Hall]; [constructor|].
  apply NoDup_cons in Hnd as [Ha Hnd].
  constructor; [by apply IH|].
  rewrite Forall_forall in *. intros x Hx.
  specialize (Hall x Hx). destruct (decide (a = x)) as [->|]; [done|lia].
Qed.

Lemma StronglySorted_lookup_le (l : list Z) (i j : nat) (x y : Z) :
  StronglySorted Z.le l → i < j → l !! i = Some x → l !! j = Some y →
  (x ≤ y)%Z.
Proof.
  intros Hs. revert i j x y.
  induction Hs as [|a l Hs IH Hall]; intros i j x y Hij Hi Hj.
  - by rewrite lookup_nil in Hi.
  - destruct j as [|j]; [lia|]. simpl in Hj.
    destruct i as [|i]; simpl in Hi.
    + simplify_eq. rewrite Forall_forall in Hall. apply Hall.
      eapply list_elem_of_lookup_2. eauto.
    + eapply (IH i j); [lia|done..].
Qed.

(** The line table is strictly ascending. *)
Lemma sorted_lookup_lt (p : ProgramType) (i j : nat) (x y : Z) :
  i < j → sorted p !! i = Some x → sorted p !! j = Some y → (x < y)%Z.
Proof.
  intros Hij Hi Hj.
  pose proof (StronglySorted_lookup_le _ _ _ _ _
                (sorted_StronglySorted p) Hij Hi Hj) as Hle.
  destruct (decide (x = y)) as [->|Hne]; [|lia].
  pose proof (NoDup_lookup _ _ _ _ (sorted_NoDup p) Hi Hj). lia.
Qed.

Lemma list_index_lookup (l : list Z) (x : Z) (i : nat) :
  NoDup l → l !! i = Some x → list_index x l = Some i.
Proof.
  intros Hnd. revert i. induction Hnd as [|y l Hy Hnd IH]; intros i Hi.
  - by rewrite lookup_nil in Hi.
  - destruct i as [|i]; simpl in *.
    + simplify_eq. by rewrite bool_decide_eq_true_2.
    + rewrite bool_decide_eq_false_2.
      * by rewrite (IH i Hi).
      * intros ->. apply Hy. eapply list_elem_of_lookup_2. eauto.
Qed.

Lemma list_index_elem_of (l : list Z) (x : Z) :
  x ∈ l → is_Some (list_index x l).
Proof.
  induction l as [|y l IH]; intros Hx.
  - by apply elem_of_nil in Hx.
  - simpl. case_bool_decide; [eauto|].
    apply elem_of_cons in Hx as [->|Hx]; [done|].
    destruct (IH Hx) as [i ->]. simpl. eauto.
Qed.

(** ** The control operations *)

Lemma set_engines_same (w : World) (e : eid) (rt : Runtime) :
  engines w !! e = Some rt → set_engines (<[e := rt]> (engines w)) w = w.
Proof.
  intros He. destruct w as [ds es vs]; simpl in *.
  unfold set_engines; simpl. by rewrite list_insert_id.
Qed.

Lemma call_raises (w : World) (e : eid) (rt : Runtime)
    (op : Runtime → option exn * Runtime) (x : exn) :
  engines w !! e = Some rt → op rt = (Some x, rt) →
  call e op w = (Raised x, w).
Proof.
  intros He Hop. unfold call. rewrite He, Hop. simpl.
  by rewrite set_engines_same.
Qed.

(** C4. A [goto] or [gosub] to a line that the program does not have raises
    the unknown-line error and leaves the engine as it was: no return
    address is pushed and no jump target is set; the step that made the
    call ends there, the whole store unchanged. *)
Theorem unknown_line_fails_atomically (load : string → load_result)
    (run : eid → M unit) (e : eid) (w : World) (rt : Runtime) (L : Z)
    (k : stmt) :
  engines w !! e = Some rt →
  program rt !! L = None →
  goto L rt = (Some (NoSuchLine L), rt) ∧
  gosub L rt = (Some (NoSuchLine L), rt) ∧
  exec_stmt load run e (Goto L k) w = (Raised (NoSuchLine L), w) ∧
  exec_stmt load run e (Gosub L k) w = (Raised (NoSuchLine L), w).
Proof.
  intros He HL.
  assert (Hgoto : goto L rt = (Some (NoSuchLine L), rt))
    by (unfold goto; by rewrite HL).
  assert (Hgosub : gosub L rt = (Some (NoSuchLine L), rt))
    by (unfold gosub; by rewrite HL).
  repeat split; [done..| |]; simpl; unfold bind.
  - by rewrite (call_raises w e rt _ _ He Hgoto).
  - by rewrite (call_raises w e rt _ _ He Hgosub).
Qed.

Lemma unknown_line_fails_atomically_witness :
  let rt := set_stack [Some 30%Z] (fresh_runtime prog_gosub_return 0) in
  let w := mkWorld [∅] [rt] [] in
  goto 40 rt = (Some (NoSuchLine 40), rt) ∧
  gosub 40 rt = (Some (NoSuchLine 40), rt) ∧
  exec_stmt no_files (λ _, ret tt) 0 (Goto 40 Skip) w
    = (Raised (NoSuchLine 40), w) ∧
  exec_stmt no_files (λ _, ret tt) 0 (Gosub 40 Skip) w
    = (Raised (NoSuchLine 40), w).
Proof.
  intros rt w.
  apply (unknown_line_fails_atomically no_files (λ _, ret tt) 0 w rt 40 Skip);
    vm_compute; reflexivity.
Defined.

(** C5. [return_] on an empty call stack raises the unbalanced-return
    error and changes nothing: the engine object (call stack, signals) and,
    for the step that made the call, the whole store (shared state
    included) are as before. *)
Theorem return_on_empty_stack (load : string → load_result)
    (run : eid → M unit) (e : eid) (w : World) (rt : Runtime) (k : stmt) :
  engines w !! e = Some rt →
  stack rt = [] →
  return_ rt = (Some ReturnWithoutGosub, rt) ∧
  exec_stmt load run e (Return_ k) w = (Raised ReturnWithoutGosub, w).
Proof.
  intros He Hst.
  assert (Hret : return_ rt = (Some ReturnWithoutGosub, rt))
    by (unfold return_; by rewrite Hst).
  split; [done|]. simpl; unfold bind.
  by rewrite (call_raises w e rt _ _ He Hret).
Qed.

Lemma return_on_empty_stack_witness :
  let rt := fresh_runtime prog_gosub_return 0 in
  let w := mkWorld [{["x" := VInt 1]}] [rt] [(0, 10%Z)] in
  return_ rt = (Some ReturnWithoutGosub, rt) ∧
  exec_stmt no_files (λ _, ret tt) 0 (Return_ Skip) w
    = (Raised ReturnWithoutGosub, w).
Proof.
  intros rt w.
  apply (return_on_empty_stack no_files (λ _, ret tt) 0 w rt Skip);
    reflexivity.
Defined.

(** ** Return addresses *)

Lemma following_line_of_next (p : ProgramType) (i : nat) (C : Z) :
  sorted p !! i = Some C →
  following_line p C (sorted p !! (i + 1)).
Proof.
  intros Hi. destruct (sorted p !! (i + 1)) as [n|] eqn:Hn; simpl.
  - split; [|split].
    + apply sorted_elem_of. eapply list_elem_of_lookup_2. eauto.
    + eapply (sorted_lookup_lt p i (i + 1)); [lia|done..].
    + intros m Hm HCm. apply sorted_elem_of in Hm.
      apply list_elem_of_lookup in Hm as [j Hj].
      destruct (decide (j = i + 1)) as [->|Hne]; [simplify_eq; lia|].
      destruct (decide (j < i + 1)) as [Hlt|Hge].
      * destruct (decide (j = i)) as [->|Hne']; [simplify_eq; lia|].
        pose proof (sorted_lookup_lt p j i m C ltac:(lia) Hj Hi). lia.
      * pose proof (sorted_lookup_lt p (i + 1) j n m ltac:(lia) Hn Hj). lia.
  - intros m Hm. apply sorted_elem_of in Hm.
    apply list_elem_of_lookup in Hm as [j Hj].
    apply lookup_ge_None in Hn. apply lookup_lt_Some in Hj as Hlt.
    destruct (decide (j = i)) as [->|Hne]; [simplify_eq; lia|].
    pose proof (sorted_lookup_lt p j i m C ltac:(lia) Hj Hi). lia.
Qed.

Lemma next_line_lookup (l : list Z) (i : nat) :
  (if bool_decide (i + 1 < length l) then l !! (i + 1) else None)
  = l !! (i + 1).
Proof.
  case_bool_decide; [done|]. symmetry. apply lookup_ge_None. lia.
Qed.

(** C3. [gosub(L)] at line [C] pushes the line that follows [C] in the
    sorted line table, the least line of the program above [C], or the
    sentinel [None] when [C] is the last line.  A [return_] that pops this
    address makes the loop go on exactly at that line, and one that pops
    the sentinel makes the loop stop. *)
Theorem gosub_return_address (rt : Runtime) (C L : Z) :
  lines rt = sorted (program rt) →
  lines rt !! line_idx rt = Some C →
  is_Some (program rt !! L) →
  ∃ ret : option Z,
    gosub L rt
      = (None, set_goto_line (Some L) (set_stack (stack rt ++ [ret]) rt)) ∧
    following_line (program rt) C ret ∧
    ∀ rt2 : Runtime,
      lines rt2 = lines rt →
      last (stack rt2) = Some ret →
      _halted rt2 = false →
      (return_ rt2).1 = None ∧
      stack (return_ rt2).2 = removelast (stack rt2) ∧
      match ret with
      | Some n =>
          lines rt !! (line_idx rt + 1) = Some n ∧
          resolve (return_ rt2).2
            = Continue (set_line_idx (line_idx rt + 1) (return_ rt2).2)
      | None => resolve (return_ rt2).2 = Break
      end.
Proof.
  intros Hlines HC [s HL].
  exists (lines rt !! (line_idx rt + 1)). split; [|split].
  - unfold gosub. rewrite HL. by rewrite next_line_lookup.
  - rewrite Hlines in *. by apply following_line_of_next.
  - intros rt2 Hl2 Hlast Hh2.
    assert (Hret : return_ rt2 =
      (None, set_returning true
         match lines rt !! (line_idx rt + 1) with
         | None => set_halted true (set_stack (removelast (stack rt2)) rt2)
         | Some l =>
             set_goto_line (Some l) (set_stack (removelast (stack rt2)) rt2)
         end)).
    { unfold return_. destruct (stack rt2) as [|a st] eqn:Hst; [done|].
      by rewrite Hlast. }
    rewrite Hret. simpl.
    destruct (lines rt !! (line_idx rt + 1)) as [n|] eqn:Hn; simpl.
    + split; [done|]. split; [done|]. split; [done|].
      unfold resolve; simpl. rewrite Hh2. unfold jump_to; simpl.
      rewrite Hl2.
      rewrite (list_index_lookup (lines rt) n (line_idx rt + 1)); [done| |done].
      rewrite Hlines. apply sorted_NoDup.
    + done.
Qed.

Lemma gosub_return_address_witness :
  let rt := set_line_idx 1 (fresh_runtime prog_gosub_return 0) in
  ∃ ret : option Z,
    gosub 50 rt
      = (None, set_goto_line (Some 50%Z) (set_stack (stack rt ++ [ret]) rt)) ∧
    following_line (program rt) 20 ret ∧
    ∀ rt2 : Runtime,
      lines rt2 = lines rt →
      last (stack rt2) = Some ret →
      _halted rt2 = false →
      (return_ rt2).1 = None ∧
      stack (return_ rt2).2 = removelast (stack rt2) ∧
      match ret with
      | Some n =>
          lines rt !! (line_idx rt + 1) = Some n ∧
          resolve (return_ rt2).2
            = Continue (set_line_idx (line_idx rt + 1) (return_ rt2).2)
      | None => resolve (return_ rt2).2 = Break
      end.
Proof.
  intros rt.
  apply (gosub_return_address rt 20 50);
    [reflexivity | vm_compute; reflexivity | vm_compute; eauto].
Defined.

(** The call at line 30, the last one, pushes the sentinel; the return at
    line 20 ends the run: line 30 is not called again. *)
Example gosub_at_last_line_run :
  let out := run_program no_files 6 prog_gosub_last None empty_world in
  out.1 = Done 0 ∧
  visited out.2 = [(0, 10%Z); (0, 30%Z); (0, 20%Z)] ∧
  (stack <$> engines out.2 !! 0) = Some [] ∧
  (_halted <$> engines out.2 !! 0) = Some true.
Proof. vm_compute. done. Qed.

(** ** Several control operations in one step *)

Lemma invoke_all_snoc (cs : list control) (c : control) (rt rt' : Runtime) :
  invoke_all (cs ++ [c]) rt = (None, rt') →
  ∃ rt1, invoke_all cs rt = (None, rt1) ∧ invoke c rt1 = (None, rt').
Proof.
  revert rt. induction cs as [|c0 cs IH]; intros rt; simpl.
  - destruct (invoke c rt) as [[x|] rt1] eqn:Hc; [done|].
    intros [= <-]. eauto.
  - destruct (invoke c0 rt) as [[x|] rt1] eqn:Hc0; [done|]. apply IH.
Qed.

Lemma invoke_lines (c : control) (rt : Runtime) :
  lines (invoke c rt).2 = lines rt.
Proof.
  destruct c; simpl; unfold goto, gosub, return_, halt;
    repeat case_match; done.
Qed.

Lemma invoke_halted_sticky (c : control) (rt : Runtime) :
  _halted rt = true → _halted (invoke c rt).2 = true.
Proof.
  destruct c; simpl; unfold goto, gosub, return_, halt;
    repeat case_match; done.
Qed.

Lemma invoke_all_lines (cs : list control) (rt : Runtime) :
  lines (invoke_all cs rt).2 = lines rt.
Proof.
  revert rt. induction cs as [|c cs IH]; intros rt; simpl; [done|].
  pose proof (invoke_lines c rt) as Hc.
  destruct (invoke c rt) as [[x|] rt1]; simpl in *; [done|].
  by rewrite IH.
Qed.

Lemma invoke_all_halted_sticky (cs : list control) (rt : Runtime) :
  _halted rt = true → _halted (invoke_all cs rt).2 = true.
Proof.
  revert rt. induction cs as [|c cs IH]; intros rt Hh; simpl; [done|].
  pose proof (invoke_halted_sticky c rt Hh) as Hc.
  destruct (invoke c rt) as [[x|] rt1]; simpl in *; [done|].
  by apply IH.
Qed.

Lemma invoke_all_halt (cs : list control) (rt : Runtime) :
  (invoke_all cs rt).1 = None → CHalt ∈ cs →
  _halted (invoke_all cs rt).2 = true.
Proof.
  revert rt. induction cs as [|c cs IH]; intros rt Hok Hin; simpl in *.
  - by apply elem_of_nil in Hin.
  - apply elem_of_cons in Hin as [<-|Hin].
    + simpl. by apply invoke_all_halted_sticky.
    + destruct (invoke c rt) as [[x|] rt1]; simpl in *; [done|].
      by apply IH.
Qed.

(** Running [body_of cs] is invoking [cs] on the engine object. *)
Lemma exec_body_of (load : string → load_result) (run : eid → M unit)
    (e : eid) (cs : list control) (w : World) (rt : Runtime) :
  engines w !! e = Some rt →
  exec_stmt load run e (body_of cs) w =
    (match (invoke_all cs rt).1 with
     | None => Done tt
     | Some x => Raised x
     end,
     set_engines (<[e := (invoke_all cs rt).2]> (engines w)) w).
Proof.
  revert w rt. induction cs as [|c cs IH]; intros w rt He.
  { simpl. unfold ret. by rewrite set_engines_same. }
  assert (Hstep : exec_stmt load run e (body_of (c :: cs)) w
                  = (call e (invoke c) ;; exec_stmt load run e (body_of cs)) w)
    by by destruct c.
  rewrite Hstep. unfold bind, call. rewrite He. simpl.
  destruct (invoke c rt) as [[x|] rt1]; simpl; [done|].
  rewrite (IH _ rt1); simpl.
  - by rewrite list_insert_insert_eq.
  - apply list_lookup_insert_eq. by eapply lookup_lt_Some.
Qed.

(** C2, as the code has it.  Of the operations that a step invokes, the
    last [goto] or [gosub] decides the pending jump target, whatever was
    invoked before it; a halt request is not overwritten: once [halt] was
    invoked in the step the flag stays set and the loop stops after the
    step, also when a [goto] to a valid line follows. *)
Theorem last_jump_wins_halt_sticks (cs : list control) (c : control)
    (rt rt' : Runtime) :
  invoke_all (cs ++ [c]) rt = (None, rt') →
  match c with
  | CGoto L | CGosub L => _goto_line rt' = Some L
  | CReturn => _returning rt' = true
  | CHalt => _halted rt' = true
  end ∧
  (CHalt ∈ cs ++ [c] → _halted rt' = true ∧ resolve rt' = Break) ∧
  (_halted rt' = false →
   ∀ L i, c = CGoto L ∨ c = CGosub L →
          list_index L (lines rt) = Some i →
          resolve rt' = Continue (set_line_idx i rt')) ∧
  (∀ load run e w,
     engines w !! e = Some rt →
     exec_stmt load run e (body_of (cs ++ [c])) w
     = (Done tt, set_engines (<[e := rt']> (engines w)) w)).
Proof.
  intros Hall.
  destruct (invoke_all_snoc _ _ _ _ Hall) as (rt1 & Hcs & Hc).
  assert (Hlast : match c with
                  | CGoto L | CGosub L => _goto_line rt' = Some L
                  | CReturn => _returning rt' = true
                  | CHalt => _halted rt' = true
                  end).
  { destruct c; simpl in Hc; unfold goto, gosub, return_, halt in Hc;
      repeat case_match; simplify_eq; done. }
  split; [done|]. split; [|split].
  - intros Hin.
    pose proof (invoke_all_halt (cs ++ [c]) rt) as Hh.
    rewrite Hall in Hh. simpl in Hh. specialize (Hh eq_refl Hin).
    split; [done|]. unfold resolve. by rewrite Hh.
  - intros Hh L i HcL Hi.
    assert (Hg : _goto_line rt' = Some L) by (by destruct HcL as [-> | ->]).
    pose proof (invoke_all_lines (cs ++ [c]) rt) as Hl.
    rewrite Hall in Hl. simpl in Hl.
    unfold resolve. rewrite Hh, Hg. unfold jump_to. by rewrite Hl, Hi.
  - intros load run e w He.
    rewrite (exec_body_of load run e (cs ++ [c]) w rt He). by rewrite Hall.
Qed.

Lemma last_jump_wins_halt_sticks_witness :
  let rt := fresh_runtime prog_halt_goto 0 in
  let rt' := set_goto_line (Some 20%Z) (set_halted true rt) in
  match CGoto 20 with
  | CGoto L | CGosub L => _goto_line rt' = Some L
  | CReturn => _returning rt' = true
  | CHalt => _halted rt' = true
  end ∧
  (CHalt ∈ [CHalt] ++ [CGoto 20] → _halted rt' = true ∧ resolve rt' = Break) ∧
  (_halted rt' = false →
   ∀ L i, CGoto 20 = CGoto L ∨ CGoto 20 = CGosub L →
          list_index L (lines rt) = Some i →
          resolve rt' = Continue (set_line_idx i rt')) ∧
  (∀ load run e w,
     engines w !! e = Some rt →
     exec_stmt load run e (body_of ([CHalt] ++ [CGoto 20])) w
     = (Done tt, set_engines (<[e := rt']> (engines w)) w)).
Proof.
  intros rt rt'.
  apply (last_jump_wins_halt_sticks [CHalt] (CGoto 20) rt rt').
  vm_compute; reflexivity.
Defined.

(** C2, as the specification has it, fails: in [prog_halt_goto] line 10
    calls [halt()] and then [goto(20)], 20 being a line of the program; the
    run ends after line 10 and line 20 is never executed. *)
Lemma halt_then_goto_halts :
  let rt := (goto 20 (halt (fresh_runtime prog_halt_goto 0)).2).2 in
  is_Some (program rt !! 20%Z) ∧
  _goto_line rt = Some 20%Z ∧
  resolve rt = Break ∧
  (run_program no_files 5 prog_halt_goto None empty_world).1 = Done 0 ∧
  visited (run_program no_files 5 prog_halt_goto None empty_world).2
    = [(0, 10%Z)].
Proof. vm_compute. eauto 10. Qed.

(** ** Reasoning on step bodies

    A property [Q w r w'] of the store before, the outcome and the store
    after holds of every step body when it holds of the calls a body is
    made of and is closed under sequencing. *)

Section ExecInduction.
Variable load : string → load_result.
Variable run : eid → M unit.
Variable e : eid.
Variable Q : World → result unit → World → Prop.

Hypothesis Q_done : ∀ w, Q w (Done tt) w.
Hypothesis Q_fail : ∀ w x, not_index_error x → Q w (Raised x) w.
Hypothesis Q_seq : ∀ w r1 w1 r2 w2, Q w r1 w1 → Q w1 r2 w2 → Q w r2 w2.
Hypothesis Q_call : ∀ c w rt,
  engines w !! e = Some rt →
  Q w (call e (invoke c) w).1 (call e (invoke c) w).2.
Hypothesis Q_setitem : ∀ d key v w m,
  dicts w !! d = Some m →
  Q w (Done tt) (set_dicts (<[d := <[key := v]> m]> (dicts w)) w).
Hypothesis Q_new_dict : ∀ w, Q w (Done tt) (set_dicts (dicts w ++ [∅]) w).
Hypothesis Q_nested : ∀ prog g w rt,
  engines w !! e = Some rt →
  let w1 := with_new_engine (sub_runtime prog g e) w in
  Q w (run (length (engines w)) w1).1 (run (length (engines w)) w1).2.

Lemma call_Q (c : control) (w : World) :
  Q w (call e (invoke c) w).1 (call e (invoke c) w).2.
Proof.
  destruct (engines w !! e) as [rt|] eqn:He; [by eapply Q_call|].
  unfold call. rewrite He. simpl. by apply Q_fail.
Qed.

(** [run_file] either raises on the spot or makes the new engine object
    and runs it. *)
Lemma run_file_cases (f : string) (gd : option loc) (w : World) :
  (∃ x, not_index_error x ∧ run_file load run e f gd w = (Raised x, w)) ∨
  (∃ prog rt g,
      load f = Loaded prog ∧ engines w !! e = Some rt ∧
      match gd with
      | None => g = globals rt
      | Some l => ∃ m, dicts w !! l = Some m ∧
                       g = if bool_decide (size m ≠ 0) then l else globals rt
      end ∧
      run_file load run e f gd w
      = run (length (engines w)) (with_new_engine (sub_runtime prog g e) w)).
Proof.
  remember (run_file load run e f gd w) as X eqn:HX.
  unfold run_file, bind, get_engine, get_dict, Runtime_init, ret, raise
    in HX.
  destruct (load f) as [| | |prog] eqn:Hload;
    try (left; eexists; split; [|exact HX]; by intros ?).
  destruct (engines w !! e) as [rt|] eqn:He;
    [|left; eexists; split; [|exact HX]; by intros ?].
  destruct gd as [l|].
  - destruct (dicts w !! l) as [m|] eqn:Hl;
      [|left; eexists; split; [|exact HX]; by intros ?].
    right.
    exists prog, rt, (if bool_decide (size m ≠ 0) then l else globals rt).
    split; [done|]. split; [done|]. split; [eauto|].
    rewrite HX. by case_bool_decide.
  - right. exists prog, rt, (globals rt). by repeat split.
Qed.

Lemma run_file_Q (f : string) (gd : option loc) (w : World) :
  Q w (run_file load run e f gd w).1 (run_file load run e f gd w).2.
Proof.
  destruct (run_file_cases f gd w) as [(x & Hx & ->)|(p & rt & g & _ & He & _ & ->)].
  - by apply Q_fail.
  - by eapply Q_nested.
Qed.

Lemma bind_Q (c : M unit) (k : M unit) (w : World) :
  Q w (c w).1 (c w).2 →
  (∀ w1, Q w1 (k w1).1 (k w1).2) →
  Q w ((c ;; k) w).1 ((c ;; k) w).2.
Proof.
  intros Hc Hk. unfold bind.
  destruct (c w) as [[[]|x|] w1]; simpl in *; [|done..].
  eapply Q_seq; [exact Hc|apply Hk].
Qed.

Lemma exec_stmt_Q (s : stmt) (w : World) :
  Q w (exec_stmt load run e s w).1 (exec_stmt load run e s w).2.
Proof.
  revert w.
  induction s as [|line k IH|line k IH|k IH|k IH|f gd k IH|d key v k IH
                 |d k IH|k IH|tag|body IHb catches handler IHh k IHk];
    intros w; simpl.
  - apply Q_done.
  - apply bind_Q; [apply (call_Q (CGoto line))|done].
  - apply bind_Q; [apply (call_Q (CGosub line))|done].
  - apply bind_Q; [apply (call_Q CReturn)|done].
  - apply bind_Q; [apply (call_Q CHalt)|done].
  - apply bind_Q; [apply run_file_Q|done].
  - apply bind_Q; [|done]. unfold setitem, bind, get_dict.
    destruct (dicts w !! d) as [m|] eqn:Hd; simpl.
    + by apply Q_setitem.
    + by apply Q_fail.
  - unfold bind, get_dict.
    destruct (dicts w !! d) as [m|] eqn:Hd; simpl; [apply IH|].
    by apply Q_fail.
  - unfold bind, new_dict. eapply Q_seq; [apply Q_new_dict|apply IH].
  - by apply Q_fail.
  - specialize (IHb w).
    destruct (exec_stmt load run e body w) as [[[]|x|] w1]; simpl in *.
    + eapply Q_seq; [exact IHb|apply IHk].
    + destruct (catches x); [|done].
      eapply Q_seq; [exact IHb|].
      apply bind_Q; [apply IHh|apply IHk].
    + done.
Qed.
End ExecInduction.

(** ** One turn of the loop *)

Section Loop.
Variable load : string → load_result.
Variable res : Runtime → resolution.

(** The loop, one turn unfolded. *)
Lemma run_loop_unfold (n : nat) (e : eid) (w : World) :
  run_loop load res (S n) e w =
    match engines w !! e with
    | None => (Raised (BadHandle e), w)
    | Some self =>
        if negb (bool_decide (line_idx self < length (lines self)))
        then (Done tt, w)
        else if _halted self then (Done tt, w)
        else
          match lines self !! line_idx self with
          | None => (Raised (IndexOutOfRange (line_idx self)), w)
          | Some line =>
              match program self !! line with
              | None =>
                  (Raised (NoSuchKey line),
                   set_engines (<[e := (reset_signals self).2]> (engines w)) w)
              | Some s =>
                  match exec_stmt load (run_with load res n) e
                          (s (globals self)) (begin_step e line self w) with
                  | (Done _, w') =>
                      match engines w' !! e with
                      | None => (Raised (BadHandle e), w')
                      | Some self' =>
                          match res self' with
                          | Break => (Done tt, w')
                          | Fault x => (Raised x, w')
                          | Continue rt =>
                              run_loop load res n e
                                (set_engines (<[e := rt]> (engines w')) w')
                          end
                      end
                  | (Raised x, w') => (Raised x, w')
                  | (OutOfFuel, w') => (OutOfFuel, w')
                  end
              end
          end
    end.
Proof.
  simpl. unfold bind at 1. unfold get_engine at 1.
  destruct (engines w !! e) as [self|] eqn:He; [|done].
  destruct (negb _); [done|]. destruct (_halted self); [done|].
  destruct (lines self !! line_idx self) as [line|]; [|done].
  unfold bind at 1. unfold call at 1. rewrite He. simpl.
  destruct (program self !! line) as [s|]; [|done].
  unfold bind at 1. unfold bind at 1. unfold begin_step, run_with. simpl.
  match goal with
  | |- context [exec_stmt ?l ?r ?e0 ?b ?w0] =>
      destruct (exec_stmt l r e0 b w0) as [[[]|x|] w']
  end; [|done..].
  unfold bind at 1. unfold get_engine.
  destruct (engines w' !! e) as [self'|] eqn:He'; [|done].
  destruct (res self') as [|rt|x]; [done| |done].
  unfold bind, call. by rewrite He'.
Qed.

Lemma run_loop_exit (n : nat) (e : eid) (w : World) (self : Runtime) :
  engines w !! e = Some self →
  ¬ line_idx self < length (lines self) ∨ _halted self = true →
  run_loop load res (S n) e w = (Done tt, w).
Proof.
  intros He Hexit. simpl. unfold bind, get_engine. rewrite He.
  destruct Hexit as [Hidx|Hh].
  - by rewrite bool_decide_eq_false_2.
  - rewrite Hh. by destruct (negb _).
Qed.

Lemma run_loop_iteration (n : nat) (e : eid) (w : World) (self : Runtime)
    (line : Z) (s : nat → stmt) :
  engines w !! e = Some self →
  line_idx self < length (lines self) →
  _halted self = false →
  lines self !! line_idx self = Some line →
  program self !! line = Some s →
  run_loop load res (S n) e w =
    match exec_stmt load (run_with load res n) e (s (globals self))
            (begin_step e line self w) with
    | (Done _, w') =>
        match engines w' !! e with
        | None => (Raised (BadHandle e), w')
        | Some self' =>
            match res self' with
            | Break => (Done tt, w')
            | Fault x => (Raised x, w')
            | Continue rt =>
                run_loop load res n e
                  (set_engines (<[e := rt]> (engines w')) w')
            end
        end
    | (Raised x, w') => (Raised x, w')
    | (OutOfFuel, w') => (OutOfFuel, w')
    end.
Proof.
  intros He Hidx Hh Hline Hs. simpl.
  unfold bind at 1. unfold get_engine at 1. rewrite He.
  rewrite bool_decide_eq_true_2 by done. simpl. rewrite Hh, Hline.
  unfold bind at 1. unfold call at 1. rewrite He. simpl. rewrite Hs.
  unfold bind at 1. unfold bind at 1. unfold begin_step, run_with. simpl.
  match goal with
  | |- context [exec_stmt ?l ?r ?e0 ?b ?w0] =>
      destruct (exec_stmt l r e0 b w0) as [[[]|x|] w']
  end; [|done..].
  unfold bind at 1. unfold get_engine.
  destruct (engines w' !! e) as [self'|] eqn:He'; [|done].
  destruct (res self') as [|rt|x]; [done| |done].
  unfold bind, call. by rewrite He'.
Qed.
End Loop.

(** ** Framing: what a step and a run leave alone *)

Lemma others_kept_refl (e : eid) (w : World) : others_kept e w w.
Proof. by split. Qed.

Lemma others_kept_trans (e : eid) (w1 w2 w3 : World) :
  others_kept e w1 w2 → others_kept e w2 w3 → others_kept e w1 w3.
Proof.
  intros [Hl1 Hk1] [Hl2 Hk2]. split; [lia|].
  intros e' He' Hne. rewrite Hk2, Hk1; [done..|lia|done].
Qed.

Lemma others_kept_same_engines (e : eid) (w w' : World) :
  engines w' = engines w → others_kept e w w'.
Proof. intros Heq. split; by rewrite Heq. Qed.

Lemma call_others_kept (e : eid) (op : Runtime → option exn * Runtime)
    (w : World) :
  others_kept e w (call e op w).2.
Proof.
  unfold call. destruct (engines w !! e) as [rt|] eqn:He;
    [|apply others_kept_refl].
  assert (others_kept e w (set_engines (<[e:=(op rt).2]> (engines w)) w)).
  { split; simpl; [by rewrite length_insert|].
    intros e' _ Hne. by rewrite list_lookup_insert_ne. }
  by destruct (op rt).1.
Qed.

Lemma call_lookup (e : eid) (op : Runtime → option exn * Runtime)
    (w : World) (rt : Runtime) :
  engines w !! e = Some rt →
  engines (call e op w).2 !! e = Some (op rt).2.
Proof.
  intros He. unfold call. rewrite He.
  assert (engines (set_engines (<[e:=(op rt).2]> (engines w)) w) !! e
          = Some (op rt).2).
  { simpl. apply list_lookup_insert_eq. by eapply lookup_lt_Some. }
  by destruct (op rt).1.
Qed.

(** A run of the engine object just made keeps all those that were there. *)
Lemma nested_keeps_all (new : Runtime) (w w' : World) :
  others_kept (length (engines w)) (with_new_engine new w) w' →
  length (engines w) ≤ length (engines w') ∧
  ∀ e', e' < length (engines w) → engines w' !! e' = engines w !! e'.
Proof.
  intros [Hlen Hk]. simpl in *. rewrite length_app in *. simpl in *.
  split; [lia|]. intros e' He'.
  rewrite Hk; [|lia..]. by apply lookup_app_l.
Qed.

Lemma bind_rel {A B} (T : World → World → Prop) (c : M A) (k : A → M B)
    (w : World) :
  (∀ w1 w2 w3, T w1 w2 → T w2 w3 → T w1 w3) →
  T w (c w).2 →
  (∀ a w1, T w1 (k a w1).2) →
  T w (bind c k w).2.
Proof.
  intros Htrans Hc Hk. unfold bind.
  destruct (c w) as [[a|x|] w1]; simpl in *; [|done..].
  eapply Htrans; [exact Hc|apply Hk].
Qed.

Section Evolves.
Variable load : string → load_result.
Variable R : Runtime → Runtime → Prop.
Hypothesis R_refl : ∀ rt, R rt rt.
Hypothesis R_trans : ∀ a b c, R a b → R b c → R a c.
Hypothesis R_invoke : ∀ c rt, R rt (invoke c rt).2.

Lemma evolves_refl (e : eid) (w : World) : evolves R e w w.
Proof. split; [apply others_kept_refl|]. eauto. Qed.

Lemma evolves_trans (e : eid) (w1 w2 w3 : World) :
  evolves R e w1 w2 → evolves R e w2 w3 → evolves R e w1 w3.
Proof.
  intros [Hk1 He1] [Hk2 He2]. split; [by eapply others_kept_trans|].
  intros rt Hrt. destruct (He1 rt Hrt) as (rt2 & Hrt2 & HR2).
  destruct (He2 rt2 Hrt2) as (rt3 & Hrt3 & HR3). eauto.
Qed.

Lemma evolves_same_engines (e : eid) (w w' : World) :
  engines w' = engines w → evolves R e w w'.
Proof.
  intros Heq. split; [by apply others_kept_same_engines|].
  intros rt Hrt. rewrite Heq. eauto.
Qed.

(** A step body moves its engine along [R] and keeps the others, when
    the nested runs keep the engines other than their own. *)
Lemma exec_stmt_evolves (run : eid → M unit) (e : eid) (s : stmt)
    (w : World) :
  (∀ c w0, others_kept c w0 (run c w0).2) →
  evolves R e w (exec_stmt load run e s w).2.
Proof.
  intros Hrun.
  apply (exec_stmt_Q load run e (λ w _ w', evolves R e w w')).
  - apply evolves_refl.
  - intros; apply evolves_refl.
  - intros ? ? ? ? ?; apply evolves_trans.
  - intros c w0 rt He. split; [apply call_others_kept|].
    intros rt0 Hrt0. simplify_eq.
    exists (invoke c rt).2. split; [by apply call_lookup|apply R_invoke].
  - intros; by apply evolves_same_engines.
  - intros; by apply evolves_same_engines.
  - intros prog g w0 rt He w1.
    destruct (nested_keeps_all _ _ _ (Hrun (length (engines w0)) w1))
      as [Hlen Hk].
    split; [split; [done|]; intros; apply Hk; lia|].
    intros rt0 Hrt0. exists rt0. split; [|done].
    rewrite Hk; [done|]. by eapply lookup_lt_Some.
Qed.
End Evolves.

Section RunFrame.
Variable load : string → load_result.
Variable res : Runtime → resolution.

Lemma start_others_kept (loop : eid → M unit) (e : eid) (w : World) :
  (∀ w0, others_kept e w0 (loop e w0).2) →
  others_kept e w (start loop e w).2.
Proof.
  intros Hloop. unfold start.
  apply bind_rel; [apply others_kept_trans|apply call_others_kept|done].
Qed.

(** A run changes no engine object other than its own: it can only add
    new ones. *)
Lemma run_loop_others_kept (fuel : nat) (e : eid) (w : World) :
  others_kept e w (run_loop load res fuel e w).2.
Proof.
  revert e w. induction fuel as [|n IH]; intros e w; simpl;
    [apply others_kept_refl|].
  apply bind_rel; [apply others_kept_trans| |].
  { unfold get_engine. destruct (engines w !! e); apply others_kept_refl. }
  intros self w1.
  destruct (negb _); [apply others_kept_refl|].
  destruct (_halted self); [apply others_kept_refl|].
  destruct (lines self !! line_idx self) as [line|];
    [|apply others_kept_refl].
  apply bind_rel; [apply others_kept_trans|apply call_others_kept|].
  intros _ w2.
  destruct (program self !! line) as [stmt|]; [|apply others_kept_refl].
  apply bind_rel; [apply others_kept_trans| |].
  { by apply others_kept_same_engines. }
  intros _ w3.
  apply bind_rel; [apply others_kept_trans| |].
  { apply (exec_stmt_evolves load (λ _ _, True)); try done.
    intros c w0. by apply start_others_kept. }
  intros _ w4.
  apply bind_rel; [apply others_kept_trans| |].
  { unfold get_engine. destruct (engines w4 !! e); apply others_kept_refl. }
  intros self' w5.
  destruct (res self'); try apply others_kept_refl.
  apply bind_rel; [apply others_kept_trans|apply call_others_kept|done].
Qed.

Lemma run_with_others_kept (fuel : nat) (e : eid) (w : World) :
  others_kept e w (run_with load res fuel e w).2.
Proof.
  unfold run_with. apply start_others_kept.
  intros w0. apply run_loop_others_kept.
Qed.

(** The same for a step body run by such an engine. *)
Lemma step_evolves (R : Runtime → Runtime → Prop) (fuel : nat) (e : eid)
    (s : stmt) (w : World) :
  (∀ rt, R rt rt) → (∀ a b c, R a b → R b c → R a c) →
  (∀ c rt, R rt (invoke c rt).2) →
  evolves R e w (exec_stmt load (run_with load res fuel) e s w).2.
Proof.
  intros Hrefl Htrans Hinv. apply exec_stmt_evolves; try done.
  intros c w0. apply run_with_others_kept.
Qed.
End RunFrame.

(** ** Nested runs *)

Lemma same_binding_refl (rt : Runtime) : same_binding rt rt.
Proof. by repeat split. Qed.

Lemma same_binding_trans (a b c : Runtime) :
  same_binding a b → same_binding b c → same_binding a c.
Proof.
  intros (? & ? & ? & ?) (? & ? & ? & ?). repeat split; congruence.
Qed.

Lemma invoke_same_binding (c : control) (rt : Runtime) :
  same_binding rt (invoke c rt).2.
Proof.
  destruct c; simpl; unfold goto, gosub, return_, halt;
    repeat case_match; by repeat split.
Qed.

Lemma resolve_same_binding (rt rt' : Runtime) :
  resolve rt = Continue rt' → same_binding rt rt'.
Proof.
  assert (Hjump : ∀ l, jump_to l rt = Continue rt' → same_binding rt rt').
  { intros l. unfold jump_to. destruct (list_index l (lines rt)); [|done].
    intros [= <-]. by repeat split. }
  unfold resolve. destruct (_halted rt); [done|].
  destruct (_goto_line rt) as [l|]; [apply Hjump|].
  destruct (_returning rt); [done|].
  unfold advance. case_bool_decide; [|done]. intros [= <-]. by repeat split.
Qed.

(** A run never rebinds its engine: program, line table, shared-state
    reference and parent stay what they were. *)
Lemma run_loop_same_binding (load : string → load_result) (n : nat)
    (e : eid) (w : World) (rt : Runtime) :
  engines w !! e = Some rt →
  ∃ rt', engines (run_loop load resolve n e w).2 !! e = Some rt' ∧
         same_binding rt rt'.
Proof.
  revert w rt. induction n as [|n IH]; intros w rt He.
  { exists rt. split; [done|apply same_binding_refl]. }
  rewrite run_loop_unfold, He.
  destruct (negb _); [exists rt; split; [done|apply same_binding_refl]|].
  destruct (_halted rt); [exists rt; split; [done|apply same_binding_refl]|].
  destruct (lines rt !! line_idx rt) as [line|];
    [|exists rt; split; [done|apply same_binding_refl]].
  assert (He0 : engines (begin_step e line rt w) !! e
                = Some (reset_signals rt).2).
  { simpl. apply list_lookup_insert_eq. by eapply lookup_lt_Some. }
  destruct (program rt !! line) as [s|].
  2:{ exists (reset_signals rt).2. split; [exact He0|by repeat split]. }
  destruct (step_evolves load resolve same_binding n e (s (globals rt))
              (begin_step e line rt w)) as [_ Hev];
    [apply same_binding_refl|apply same_binding_trans
    |apply invoke_same_binding|].
  destruct (Hev _ He0) as (rt1 & Hrt1 & Hb1).
  assert (Hb : same_binding rt rt1).
  { eapply same_binding_trans; [|exact Hb1]. by repeat split. }
  destruct (exec_stmt load (run_with load resolve n) e (s (globals rt))
              (begin_step e line rt w)) as [[[]|x|] w']; simpl in Hrt1;
    try (by exists rt1).
  rewrite Hrt1.
  destruct (resolve rt1) as [|rt2|x] eqn:Hres; try (by exists rt1).
  destruct (IH (set_engines (<[e:=rt2]> (engines w')) w') rt2)
    as (rt' & Hrt' & Hb').
  { simpl. apply list_lookup_insert_eq. by eapply lookup_lt_Some. }
  exists rt'. split; [done|].
  eapply same_binding_trans; [exact Hb|].
  eapply same_binding_trans; [|exact Hb']. by apply resolve_same_binding.
Qed.

Lemma run_same_binding (load : string → load_result) (n : nat)
    (e : eid) (w : World) (rt : Runtime) :
  engines w !! e = Some rt →
  ∃ rt', engines (run load n e w).2 !! e = Some rt' ∧ same_binding rt rt'.
Proof.
  intros He. unfold run, run_with, start, bind.
  pose proof (call_lookup e (λ rt, (None, set_line_idx 0 rt)) w rt He) as Hc.
  destruct (call e (λ rt, (None, set_line_idx 0 rt)) w)
    as [[[]|x|] w1]; simpl in Hc.
  - destruct (run_loop_same_binding load n e w1 _ Hc) as (rt' & Hrt' & Hb).
    exists rt'. split; [done|].
    eapply same_binding_trans; [|exact Hb]. by repeat split.
  - eexists. split; [exact Hc|by repeat split].
  - eexists. split; [exact Hc|by repeat split].
Qed.

Lemma run_file_loaded (load : string → load_result) (run : eid → M unit)
    (e : eid) (f : string) (gd : option loc) (w : World)
    (prog : ProgramType) (rt : Runtime) (g : loc) :
  load f = Loaded prog →
  engines w !! e = Some rt →
  chosen_globals w rt gd = Some g →
  run_file load run e f gd w
  = run (length (engines w)) (with_new_engine (sub_runtime prog g e) w).
Proof.
  intros Hload He Hg. unfold run_file. rewrite Hload.
  unfold bind, get_engine, get_dict, Runtime_init, ret. rewrite He.
  unfold chosen_globals in Hg. destruct gd as [l|].
  - destruct (dicts w !! l) as [m|]; [|done].
    simplify_eq. by case_bool_decide.
  - by simplify_eq.
Qed.

(** C8. A nested invocation makes a new engine object, with its own line
    table, its instruction pointer at 0 and an empty call stack, and runs
    it; whatever the nested run does (halt, goto, gosub, return, further
    nested runs), the parent and every other engine object that was there
    are afterwards exactly as before: signals, instruction pointer and call
    stack.  A parent whose step did nothing else therefore goes on to its
    next line.  Without an override the new engine is bound to the very
    dict object of the parent, and stays so for the whole nested run, so
    that what the nested run writes there is what the parent reads. *)
Theorem nested_run_is_local (load : string → load_result) (fuel : nat)
    (e : eid) (f : string) (gd : option loc) (w : World) (rt : Runtime) :
  engines w !! e = Some rt →
  let out := run_file load (run load fuel) e f gd w in
  let c := length (engines w) in
  (∀ e', e' < length (engines w) → engines out.2 !! e' = engines w !! e') ∧
  engines out.2 !! e = Some rt ∧
  (_halted rt = false → _goto_line rt = None → _returning rt = false →
   resolve rt = advance false rt) ∧
  (∀ prog g, load f = Loaded prog → chosen_globals w rt gd = Some g →
     out = run load fuel c (with_new_engine (sub_runtime prog g e) w) ∧
     c ≠ e ∧
     stack (sub_runtime prog g e) = [] ∧
     line_idx (sub_runtime prog g e) = 0 ∧
     lines (sub_runtime prog g e) = sorted prog ∧
     (gd = None → g = globals rt) ∧
     ∃ child, engines out.2 !! c = Some child ∧
              same_binding (sub_runtime prog g e) child).
Proof.
  intros He out c.
  assert (Hkept : ∀ e', e' < length (engines w) →
                        engines out.2 !! e' = engines w !! e').
  { subst out.
    destruct (run_file_cases load (run load fuel) e f gd w)
      as [(x & _ & ->)|(p & rt0 & g & _ & _ & _ & ->)]; [done|].
    apply (nested_keeps_all (sub_runtime p g e)).
    apply run_with_others_kept. }
  split; [done|]. split; [|split].
  - rewrite Hkept; [done|]. by eapply lookup_lt_Some.
  - intros Hh Hg Hr. unfold resolve. by rewrite Hh, Hg, Hr.
  - intros prog g Hload Hg. subst out c.
    rewrite (run_file_loaded load (run load fuel) e f gd w prog rt g)
      by done.
    split; [done|].
    split; [apply lookup_lt_Some in He; lia|].
    split; [done|]. split; [done|]. split; [done|].
    split; [intros ->; simpl in Hg; by simplify_eq|].
    apply run_same_binding. simpl. by apply list_lookup_middle.
Qed.

Lemma nested_run_is_local_witness :
  let rt := fresh_runtime prog_nested 0 in
  let w := mkWorld [∅] [rt] [] in
  let out := run_file subprog_file (run subprog_file 5) 0 "subprog.py" None w in
  let c := length (engines w) in
  (∀ e', e' < length (engines w) → engines out.2 !! e' = engines w !! e') ∧
  engines out.2 !! 0 = Some rt ∧
  (_halted rt = false → _goto_line rt = None → _returning rt = false →
   resolve rt = advance false rt) ∧
  (∀ prog g, subprog_file "subprog.py" = Loaded prog →
     chosen_globals w rt None = Some g →
     out = run subprog_file 5 c (with_new_engine (sub_runtime prog g 0) w) ∧
     c ≠ 0 ∧
     stack (sub_runtime prog g 0) = [] ∧
     line_idx (sub_runtime prog g 0) = 0 ∧
     lines (sub_runtime prog g 0) = sorted prog ∧
     ((None : option nat) = None → g = globals rt) ∧
     ∃ child, engines out.2 !! c = Some child ∧
              same_binding (sub_runtime prog g 0) child).
Proof.
  intros rt w.
  apply (nested_run_is_local subprog_file 5 0 "subprog.py" None w rt).
  reflexivity.
Defined.

(** test_nested_run_file: the parent hands its own dict to the nested run;
    the key written by the nested run is there when the parent goes on,
    and the halt of the nested run did not stop the parent. *)
Example nested_run_shares_state :
  let out := run_program subprog_file 5 prog_nested None empty_world in
  out.1 = Done 0 ∧
  visited out.2 = [(0, 10%Z); (1, 100%Z); (1, 110%Z); (0, 20%Z)] ∧
  dicts out.2 !! 0 ≫= (.!! "msg") = Some (VStr "hello from subprog") ∧
  dicts out.2 !! 0 ≫= (.!! "done") = Some (VBool true).
Proof. vm_compute. done. Qed.

(** C1, where the code departs from it.  In [prog_isolated] line 10 hands
    the nested run a store of its own, a new empty dict (position 1 of the
    store).  The nested engine (position 1) is nevertheless bound to the
    dict of the parent (position 0): the key "msg" written by the nested
    run is in the parent's dict and the dict that was handed over is still
    empty. *)
Theorem empty_override_is_ignored :
  let out := run_program subprog_file 5 prog_isolated None empty_world in
  out.1 = Done 0 ∧
  visited out.2 = [(0, 10%Z); (1, 100%Z); (1, 110%Z); (0, 20%Z)] ∧
  globals <$> engines out.2 !! 0 = Some 0 ∧
  globals <$> engines out.2 !! 1 = Some 0 ∧
  dicts out.2 !! 0 ≫= (.!! "msg") = Some (VStr "hello from subprog") ∧
  dicts out.2 !! 1 = Some ∅.
Proof. vm_compute. done. Qed.

(** With an override that is not empty, or without one, [run_file] does
    bind the nested engine as C1 says. *)
Lemma run_file_binding (w : World) (rt : Runtime) (l : loc) (m : dict) :
  dicts w !! l = Some m →
  chosen_globals w rt None = Some (globals rt) ∧
  (m ≠ ∅ → chosen_globals w rt (Some l) = Some l) ∧
  (m = ∅ → chosen_globals w rt (Some l) = Some (globals rt)).
Proof.
  intros Hl. unfold chosen_globals. rewrite Hl. split; [done|]. split.
  - intros Hm. rewrite bool_decide_eq_true_2; [done|].
    by apply map_size_non_empty_iff.
  - intros ->. rewrite map_size_empty. by rewrite bool_decide_eq_false_2 by lia.
Qed.


(** ** Halting *)

(** Once a step has requested a halt, by [halt] or by a [return_] that pops
    the sentinel, the request is still there when the step completes,
    whatever the rest [k] of the body does. *)
Lemma halt_request_sticks (load : string → load_result) (n : nat) (e : eid)
    (k : stmt) (w w' : World) (rt : Runtime) :
  engines w !! e = Some rt →
  exec_stmt load (run load n) e (Halt k) w = (Done tt, w') ∨
  (last (stack rt) = Some None ∧
   exec_stmt load (run load n) e (Return_ k) w = (Done tt, w')) →
  halt_requested e w'.
Proof.
  intros He Hex.
  assert (Hk : ∀ op, _halted (op rt).2 = true →
                 (call e op ;; exec_stmt load (run load n) e k) w
                 = (Done tt, w') → halt_requested e w').
  { intros op Hop Hrun. unfold bind in Hrun.
    pose proof (call_lookup e op w rt He) as Hlk.
    destruct (call e op w) as [[[]|x|] w1]; simpl in *; [|done..].
    pose proof (step_evolves load resolve
      (λ a b, _halted a = true → _halted b = true) n e k w1) as [_ Hev].
    { done. } { eauto. } { intros c a. apply invoke_halted_sticky. }
    destruct (Hev _ Hlk) as (rt' & Hrt' & Hh).
    unfold run in Hrun. rewrite Hrun in Hrt'. simpl in Hrt'.
    unfold halt_requested. rewrite Hrt'. simpl. by rewrite Hh. }
  destruct Hex as [Hex|[Hlast Hex]]; simpl in Hex.
  - by apply (Hk halt).
  - apply (Hk return_); [|done]. unfold return_.
    destruct (stack rt) as [|a st] eqn:Hst; [done|]. by rewrite Hlast.
Qed.

(** C6. Let the step of the current line complete, having requested a
    halt: its halt flag is set at that time, or the step came to a call of
    [halt], or to a call of [return_] with the sentinel on top of the call
    stack, with whatever body [k] left to run after it (a [goto] for
    instance).  Then the loop ends there with success, whatever jump target
    is pending: the run returns the store as that step left it, so no
    further step of this run is called. *)
Theorem halt_ends_the_run (load : string → load_result) (n : nat) (e : eid)
    (w w' : World) (self : Runtime) (line : Z) (s : nat → stmt) :
  engines w !! e = Some self →
  line_idx self < length (lines self) →
  _halted self = false →
  lines self !! line_idx self = Some line →
  program self !! line = Some s →
  exec_stmt load (run load n) e (s (globals self)) (begin_step e line self w)
    = (Done tt, w') →
  (halt_requested e w' ∨
   ∃ k w1 rt1,
     engines w1 !! e = Some rt1 ∧
     (exec_stmt load (run load n) e (Halt k) w1 = (Done tt, w') ∨
      (last (stack rt1) = Some None ∧
       exec_stmt load (run load n) e (Return_ k) w1 = (Done tt, w')))) →
  run_loop load resolve (S n) e w = (Done tt, w') ∧
  visited (run_loop load resolve (S n) e w).2 = visited w'.
Proof.
  intros He Hidx Hh Hline Hs Hex Hreq.
  assert (Hflag : halt_requested e w').
  { destruct Hreq as [?|(k & w1 & rt1 & He1 & Hk)]; [done|].
    by eapply halt_request_sticks. }
  rewrite (run_loop_iteration load resolve n e w self line s) by done.
  unfold run in Hex. rewrite Hex.
  unfold halt_requested in Hflag.
  destruct (engines w' !! e) as [self'|]; [|done].
  simpl in Hflag. simplify_eq. unfold resolve.
  by replace (_halted self') with true by congruence.
Qed.

Lemma halt_ends_the_run_witness :
  let self := fresh_runtime prog_halt_goto 0 in
  let w := mkWorld [∅] [self] [] in
  let w' := mkWorld [∅] [set_goto_line (Some 20%Z) (set_halted true self)]
                    [(0, 10%Z)] in
  run_loop no_files resolve 4 0 w = (Done tt, w') ∧
  visited (run_loop no_files resolve 4 0 w).2 = visited w'.
Proof.
  intros self w w'.
  apply (halt_ends_the_run no_files 3 0 w w' self 10
           (λ g, Halt (Goto 20 Skip)));
    [reflexivity | vm_compute; lia | reflexivity | reflexivity | reflexivity
    | reflexivity | ].
  right. exists (Goto 20 Skip), (begin_step 0 10 self w), self.
  split; [reflexivity|]. left. reflexivity.
Defined.

(** ** Programs without transfers of control *)

Lemma resolve_quiet (rt : Runtime) :
  _halted rt = false → _goto_line rt = None → _returning rt = false →
  resolve rt = advance false rt.
Proof. intros Hh Hg Hr. unfold resolve. by rewrite Hh, Hg, Hr. Qed.

Section Straight.
Variable load : string → load_result.

(** A body that makes no call on the engine returns without having
    changed any engine object, and it does return. *)
Lemma straight_exec (run : eid → M unit) (e : eid) (s : stmt) (w : World) :
  straight s →
  engines (exec_stmt load run e s w).2 = engines w ∧
  visited (exec_stmt load run e s w).2 = visited w ∧
  (exec_stmt load run e s w).1 ≠ OutOfFuel.
Proof.
  revert w.
  induction s as [|line k IH|line k IH|k IH|k IH|f gd k IH|d key v k IH
                 |d k IH|k IH|tag|body IHb catches handler IHh k IHk];
    intros w Hs; simpl in Hs; try done; simpl.
  - unfold setitem, bind, get_dict.
    destruct (dicts w !! d) as [m|]; simpl; [|done].
    by apply (IH (set_dicts _ w)).
  - unfold bind, get_dict.
    destruct (dicts w !! d) as [m|]; simpl; [|done]. by apply IH.
  - unfold bind, new_dict. by apply (IH _ (set_dicts _ w)).
  - destruct Hs as (Hb & Hh & Hk).
    destruct (IHb w Hb) as (He1 & Hv1 & Hf1).
    destruct (exec_stmt load run e body w) as [[[]|x|] w1]; simpl in *;
      [| |done].
    + rewrite <- He1, <- Hv1. by apply IHk.
    + destruct (catches x); [|done]. unfold bind.
      destruct (IHh x w1 (Hh x)) as (He2 & Hv2 & Hf2).
      destruct (exec_stmt load run e (handler x) w1) as [[[]|y|] w2];
        simpl in *; [|by rewrite He2, Hv2, He1, Hv1|done].
      rewrite <- He1, <- Hv1, <- He2, <- Hv2. by apply IHk.
Qed.

Variable prog : ProgramType.
Hypothesis prog_straight :
  ∀ line s g, prog !! line = Some s → straight (s g).

Lemma straight_run_loop (k n : nat) (e : eid) (w : World)
    (self : Runtime) :
  engines w !! e = Some self →
  program self = prog →
  lines self = sorted prog →
  _halted self = false →
  length (lines self) - line_idx self ≤ k →
  k < n →
  let out := run_loop load resolve n e w in
  let rest := drop (line_idx self) (lines self) in
  out.1 ≠ OutOfFuel ∧
  (∃ j, visited out.2 = visited w ++ map (pair e) (take j rest)) ∧
  (out.1 = Done tt → visited out.2 = visited w ++ map (pair e) rest).
Proof.
  revert n e w self.
  induction k as [|k IH]; intros n e w self He Hp Hl Hh Hk Hn out rest;
    subst out rest; (destruct n as [|n]; [lia|]).
  - rewrite (run_loop_exit load resolve n e w self) by (done || left; lia).
    rewrite drop_ge by lia. simpl.
    split; [done|]. split; [exists 0|]; by rewrite app_nil_r.
  - destruct (decide (line_idx self < length (lines self))) as [Hidx|Hidx].
    2:{ rewrite (run_loop_exit load resolve n e w self) by (done || by left).
        rewrite drop_ge by lia. simpl.
        split; [done|]. split; [exists 0|]; by rewrite app_nil_r. }
    destruct (lookup_lt_is_Some_2 _ _ Hidx) as [line Hline].
    assert (is_Some (prog !! line)) as [s Hs].
    { apply sorted_elem_of. rewrite <- Hl.
      eapply list_elem_of_lookup_2. eauto. }
    rewrite (run_loop_iteration load resolve n e w self line s)
      by (done || by rewrite Hp).
    rewrite (drop_S _ _ _ Hline).
    pose proof (straight_exec (run_with load resolve n) e (s (globals self))
                  (begin_step e line self w) (prog_straight _ _ _ Hs))
      as (Heng & Hvis & Hfuel).
    destruct (exec_stmt load (run_with load resolve n) e (s (globals self))
                (begin_step e line self w)) as [[[]|x|] w1];
      simpl in Heng, Hvis, Hfuel; [| |done].
    2:{ simpl. split; [done|]. split; [|done].
        exists 1. by rewrite Hvis. }
    assert (He1 : engines w1 !! e = Some (reset_signals self).2).
    { rewrite Heng. apply list_lookup_insert_eq. by eapply lookup_lt_Some. }
    rewrite He1, resolve_quiet by done.
    unfold advance. cbn [line_idx lines reset_signals snd set_returning
                         set_goto_line].
    case_bool_decide as Hnext.
    + match goal with
      | |- context [run_loop _ _ n e ?w0] => set (w2 := w0)
      end.
      set (self2 := set_line_idx (line_idx self + 1)
                      (set_returning false (set_goto_line None self))).
      destruct (IH n e w2 self2) as (Hf & [j Hj] & Hdone); try done.
      { simpl. apply list_lookup_insert_eq. by eapply lookup_lt_Some. }
      { simpl. lia. }
      { lia. }
      change (visited w2) with (visited w1) in *.
      change (line_idx self2) with (line_idx self + 1) in *.
      change (lines self2) with (lines self) in *.
      replace (line_idx self + 1) with (S (line_idx self)) in * by lia.
      split; [done|]. split.
      * exists (S j). rewrite Hj, Hvis. simpl. by rewrite <- app_assoc.
      * intros Hd. rewrite (Hdone Hd), Hvis. simpl. by rewrite <- app_assoc.
    + simpl. rewrite (drop_ge (lines self)) by lia.
      split; [done|]. split; [|done]. exists 1. by rewrite Hvis.
Qed.
End Straight.

(** [run_program] makes the engine object, at the next free position of
    the store, and runs its loop. *)
Lemma run_program_unfold (load : string → load_result) (fuel : nat)
    (prog : ProgramType) (gd : option loc) (w : World) :
  ∃ g w1,
    engines w1 = engines w ++ [fresh_runtime prog g] ∧
    visited w1 = visited w ∧
    run_program load fuel prog gd w =
      match run_loop load resolve fuel (length (engines w)) w1 with
      | (Done _, w2) =>
          match engines w2 !! length (engines w) with
          | Some self => (Done (globals self), w2)
          | None => (Raised (BadHandle (length (engines w))), w2)
          end
      | (Raised x, w2) => (Raised x, w2)
      | (OutOfFuel, w2) => (OutOfFuel, w2)
      end.
Proof.
  set (g := match gd with Some l => l | None => length (dicts w) end).
  set (w0 := match gd with
             | Some l => w
             | None => set_dicts (dicts w ++ [∅]) w
             end).
  exists g, (with_new_engine (fresh_runtime prog g) w0).
  assert (He0 : engines w0 = engines w) by (subst w0; by destruct gd).
  assert (Hv0 : visited w0 = visited w) by (subst w0; by destruct gd).
  split; [simpl; by rewrite He0|]. split; [done|].
  assert (Hinit : Runtime_init prog gd None w
                  = (Done (length (engines w)),
                     with_new_engine (fresh_runtime prog g) w0)).
  { unfold Runtime_init, bind, ret, new_dict. subst g w0.
    by destruct gd. }
  unfold run_program. unfold bind at 1. rewrite Hinit.
  unfold bind at 1. unfold run, run_with, start.
  unfold bind at 1. unfold call.
  assert (Hlk : engines (with_new_engine (fresh_runtime prog g) w0)
                  !! length (engines w) = Some (fresh_runtime prog g)).
  { simpl. rewrite He0. by apply list_lookup_middle. }
  rewrite Hlk. simpl fst. simpl snd. cbv iota.
  replace (set_engines _ (with_new_engine (fresh_runtime prog g) w0))
    with (with_new_engine (fresh_runtime prog g) w0).
  2:{ symmetry. by apply set_engines_same. }
  destruct (run_loop load resolve fuel (length (engines w))
              (with_new_engine (fresh_runtime prog g) w0))
    as [[[]|x|] w2]; [|done..].
  unfold bind, get_engine, ret.
  by destruct (engines w2 !! length (engines w)).
Qed.

(** *** Steps that may start nested runs *)

Lemma grows_refl (c : option eid) (w : World) : grows c w w.
Proof.
  split; [done|]. exists []. split; [by rewrite app_nil_r|].
  intros p Hp. by apply elem_of_nil in Hp.
Qed.

Lemma grows_trans (c : option eid) (w1 w2 w3 : World) :
  grows c w1 w2 → grows c w2 w3 → grows c w1 w3.
Proof.
  intros (Hl1 & ext1 & Hv1 & Ht1) (Hl2 & ext2 & Hv2 & Ht2).
  split; [lia|]. exists (ext1 ++ ext2).
  split; [by rewrite Hv2, Hv1, app_assoc|].
  intros p Hp. apply elem_of_app in Hp as [Hp|Hp]; [by apply Ht1|].
  destruct (Ht2 p Hp); [by left|right; lia].
Qed.

Lemma grows_same (c : option eid) (w w' : World) :
  length (engines w') = length (engines w) → visited w' = visited w →
  grows c w w'.
Proof.
  intros Hl Hv. split; [lia|]. exists []. split; [by rewrite app_nil_r|].
  intros p Hp. by apply elem_of_nil in Hp.
Qed.

Lemma call_grows (c : option eid) (e : eid)
    (op : Runtime → option exn * Runtime) (w : World) :
  grows c w (call e op w).2.
Proof.
  unfold call. destruct (engines w !! e) as [rt|]; [|apply grows_refl].
  assert (grows c w (set_engines (<[e:=(op rt).2]> (engines w)) w)).
  { apply grows_same; simpl; [by rewrite length_insert|done]. }
  by destruct (op rt).1.
Qed.

Lemma steps_of_grows (e : eid) (w w' : World) :
  grows None w w' → e < length (engines w) →
  steps_of e (visited w') = steps_of e (visited w).
Proof.
  intros (_ & ext & -> & Hext) He. unfold steps_of. rewrite omap_app.
  replace (omap _ ext) with (@nil Z); [by rewrite app_nil_r|].
  symmetry. induction ext as [|p ext IH]; [done|]. simpl.
  destruct (Hext p) as [?|Hp]; [by left|done|].
  rewrite bool_decide_eq_false_2 by lia.
  apply IH. intros q Hq. apply Hext. by right.
Qed.

Section Grows.
Variable load : string → load_result.

(** The steps called while a step body runs are those of the nested
    runs, called by engines made meanwhile. *)
Lemma exec_stmt_grows (run : eid → M unit) (e : eid) (s : stmt) (w : World) :
  (∀ c w0, grows (Some c) w0 (run c w0).2) →
  grows None w (exec_stmt load run e s w).2.
Proof.
  intros Hrun.
  apply (exec_stmt_Q load run e (λ w _ w', grows None w w')).
  - apply grows_refl.
  - intros; apply grows_refl.
  - intros ? ? ? ? ?; apply grows_trans.
  - intros c w0 rt _. apply call_grows.
  - intros. apply grows_same; simpl; done.
  - intros. apply grows_same; simpl; done.
  - intros prog g w0 rt _ w1.
    destruct (Hrun (length (engines w0)) w1) as (Hl & ext & Hv & Hext).
    simpl in Hl, Hv, Hext. rewrite length_app in Hl, Hext. simpl in Hl, Hext.
    split; [lia|]. exists ext. split; [done|].
    intros p Hp. right. destruct (Hext p Hp) as [[= ->]|?]; lia.
Qed.

Lemma run_loop_grows (res : Runtime → resolution) (n : nat) (e : eid)
    (w : World) :
  grows (Some e) w (run_loop load res n e w).2.
Proof.
  revert e w. induction n as [|n IH]; intros e w; [apply grows_refl|].
  rewrite run_loop_unfold.
  destruct (engines w !! e) as [self|] eqn:He; [|apply grows_refl].
  destruct (negb _); [apply grows_refl|].
  destruct (_halted self); [apply grows_refl|].
  destruct (lines self !! line_idx self) as [line|]; [|apply grows_refl].
  destruct (program self !! line) as [s|];
    [|apply grows_same; simpl; [by rewrite length_insert|done]].
  assert (Hbegin : grows (Some e) w (begin_step e line self w)).
  { split; [simpl; by rewrite length_insert|].
    exists [(e, line)]. split; [done|].
    intros p Hp. apply list_elem_of_singleton in Hp as ->. by left. }
  assert (Hstep : grows (Some e) (begin_step e line self w)
            (exec_stmt load (run_with load res n) e (s (globals self))
               (begin_step e line self w)).2).
  { destruct (exec_stmt_grows (run_with load res n) e (s (globals self))
                (begin_step e line self w)) as (Hl & ext & Hv & Hext).
    { intros c w0. unfold run_with, start, bind.
      pose proof (call_grows (Some c) c (λ rt, (None, set_line_idx 0 rt)) w0)
        as Hc.
      destruct (call c (λ rt, (None, set_line_idx 0 rt)) w0)
        as [[[]|x|] w1]; simpl in *; [|done..].
      eapply grows_trans; [exact Hc|apply IH]. }
    split; [done|]. exists ext. split; [done|].
    intros p Hp. destruct (Hext p Hp); [done|by right]. }
  destruct (exec_stmt load (run_with load res n) e (s (globals self))
              (begin_step e line self w)) as [[[]|x|] w']; simpl in Hstep;
    try (by eapply grows_trans).
  destruct (engines w' !! e) as [self'|]; [|by eapply grows_trans].
  destruct (res self') as [|rt|x]; try (by eapply grows_trans).
  eapply grows_trans; [exact Hbegin|]. eapply grows_trans; [exact Hstep|].
  eapply grows_trans; [|apply IH].
  apply grows_same; simpl; [by rewrite length_insert|done].
Qed.

Lemma run_with_grows (res : Runtime → resolution) (n : nat) (c : eid)
    (w : World) :
  grows (Some c) w (run_with load res n c w).2.
Proof.
  unfold run_with, start, bind.
  pose proof (call_grows (Some c) c (λ rt, (None, set_line_idx 0 rt)) w)
    as Hc.
  destruct (call c (λ rt, (None, set_line_idx 0 rt)) w)
    as [[[]|x|] w1]; simpl in *; [|done..].
  eapply grows_trans; [exact Hc|apply run_loop_grows].
Qed.

(** A body without transfer of control leaves its engine object as it
    was. *)
Lemma no_transfer_exec (res : Runtime → resolution) (n : nat) (e : eid)
    (s : stmt) (w : World) (rt : Runtime) :
  no_transfer s →
  engines w !! e = Some rt →
  engines (exec_stmt load (run_with load res n) e s w).2 !! e = Some rt.
Proof.
  revert w.
  induction s as [|line k IH|line k IH|k IH|k IH|f gd k IH|d key v k IH
                 |d k IH|k IH|tag|body IHb catches handler IHh k IHk];
    intros w Hs He; simpl in Hs; try done; simpl.
  - unfold bind.
    assert (Hrf : engines (run_file load (run_with load res n) e f gd w).2
                    !! e = Some rt).
    { destruct (run_file_cases load (run_with load res n) e f gd w)
        as [(x & _ & ->)|(p & rt0 & g & _ & _ & _ & ->)]; [done|].
      destruct (nested_keeps_all (sub_runtime p g e) w _
                  (run_with_others_kept load res n (length (engines w))
                     (with_new_engine (sub_runtime p g e) w))) as [_ Hk].
      rewrite Hk; [done|]. by eapply lookup_lt_Some. }
    destruct (run_file load (run_with load res n) e f gd w)
      as [[[]|x|] w1]; simpl in *; [|done..].
    by apply IH.
  - unfold setitem, bind, get_dict.
    destruct (dicts w !! d) as [m|]; simpl; [|done].
    by apply (IH (set_dicts _ w)).
  - unfold bind, get_dict.
    destruct (dicts w !! d) as [m|]; simpl; [|done]. by apply IH.
  - unfold bind, new_dict. by apply (IH _ (set_dicts _ w)).
  - destruct Hs as (Hb & Hh & Hk).
    specialize (IHb w Hb He).
    destruct (exec_stmt load (run_with load res n) e body w)
      as [[[]|x|] w1]; simpl in *; [| |done].
    + by apply IHk.
    + destruct (catches x); [|done]. unfold bind.
      specialize (IHh x w1 (Hh x) IHb).
      destruct (exec_stmt load (run_with load res n) e (handler x) w1)
        as [[[]|y|] w2]; simpl in *; [|done..].
      by apply IHk.
Qed.

Variable prog : ProgramType.
Hypothesis prog_no_transfer :
  ∀ line s g, prog !! line = Some s → no_transfer (s g).

(** The loop of such a program calls the steps of the line table from the
    current line on, in the order of the table, and falls off its end. *)
Lemma no_transfer_run_loop (n : nat) (e : eid) (w : World) (self : Runtime) :
  engines w !! e = Some self →
  program self = prog →
  lines self = sorted prog →
  _halted self = false →
  let out := run_loop load resolve n e w in
  let rest := drop (line_idx self) (lines self) in
  (∃ j, steps_of e (visited out.2) = steps_of e (visited w) ++ take j rest) ∧
  (out.1 = Done tt →
   steps_of e (visited out.2) = steps_of e (visited w) ++ rest ∧
   _halted <$> engines out.2 !! e = Some false).
Proof.
  revert e w self.
  induction n as [|n IH]; intros e w self He Hp Hl Hh out rest; subst out rest.
  { simpl. split; [|done]. exists 0. by rewrite take_0, app_nil_r. }
  destruct (decide (line_idx self < length (lines self))) as [Hidx|Hidx].
  2:{ rewrite (run_loop_exit load resolve n e w self) by (done || by left).
      rewrite drop_ge by lia. simpl. rewrite app_nil_r.
      split; [exists 0; by rewrite app_nil_r|].
      intros _. split; [done|]. by rewrite He, <- Hh. }
  destruct (lookup_lt_is_Some_2 _ _ Hidx) as [line Hline].
  assert (is_Some (prog !! line)) as [s Hs].
  { apply sorted_elem_of. rewrite <- Hl.
    eapply list_elem_of_lookup_2. eauto. }
  rewrite (run_loop_iteration load resolve n e w self line s)
    by (done || by rewrite Hp).
  rewrite (drop_S _ _ _ Hline).
  assert (He0 : engines (begin_step e line self w) !! e
                = Some (reset_signals self).2).
  { simpl. apply list_lookup_insert_eq. by eapply lookup_lt_Some. }
  pose proof (no_transfer_exec resolve n e (s (globals self))
                (begin_step e line self w) _ (prog_no_transfer _ _ _ Hs) He0)
    as He1.
  pose proof (steps_of_grows e (begin_step e line self w) _
    (exec_stmt_grows (run_with load resolve n) e (s (globals self))
       (begin_step e line self w) (run_with_grows resolve n))
    (lookup_lt_Some _ _ _ He0)) as Hv1.
  assert (Hv0 : steps_of e (visited (begin_step e line self w))
                = steps_of e (visited w) ++ [line]).
  { unfold steps_of. simpl. rewrite omap_app. simpl.
    by rewrite bool_decide_eq_true_2. }
  rewrite Hv0 in Hv1.
  destruct (exec_stmt load (run_with load resolve n) e (s (globals self))
              (begin_step e line self w)) as [[[]|x|] w1];
    simpl in He1, Hv1; simpl fst; simpl snd.
  2,3: (split; [exists 1; by rewrite Hv1|done]).
  rewrite He1, resolve_quiet by done.
  unfold advance. cbn [line_idx lines reset_signals snd set_returning
                       set_goto_line].
  case_bool_decide as Hnext.
  - match goal with
    | |- context [run_loop _ _ n e ?w0] => set (w2 := w0)
    end.
    set (self2 := set_line_idx (line_idx self + 1)
                    (set_returning false (set_goto_line None self))).
    destruct (IH e w2 self2) as ([j Hj] & Hdone); try done.
    { simpl. apply list_lookup_insert_eq. by eapply lookup_lt_Some. }
    change (visited w2) with (visited w1) in *.
    change (line_idx self2) with (line_idx self + 1) in *.
    change (lines self2) with (lines self) in *.
    replace (line_idx self + 1) with (S (line_idx self)) in * by lia.
    split.
    + exists (S j). rewrite Hj, Hv1. simpl. by rewrite <- app_assoc.
    + intros Hd. destruct (Hdone Hd) as [Hall Hhalt].
      split; [|done]. rewrite Hall, Hv1. by rewrite <- app_assoc.
  - simpl. rewrite (drop_ge (lines self)) by lia.
    split; [exists 1; by rewrite Hv1|]. intros _.
    split; [done|]. rewrite He1. simpl. by rewrite Hh.
Qed.
End Grows.

(** test_sequential: the three lines in order, and the run completes. *)
Example sequential_run :
  let out := run_program no_files 4 prog_sequential None empty_world in
  out.1 = Done 0 ∧
  visited out.2 = [(0, 10%Z); (0, 20%Z); (0, 30%Z)] ∧
  dicts out.2 !! 0 ≫= (.!! "x") = Some (VInt 2).
Proof. vm_compute. done. Qed.

(** test_gosub_return: the order of execution is 10, 20, 50, 60, 30. *)
Example gosub_return_run :
  let out := run_program no_files 6 prog_gosub_return None empty_world in
  out.1 = Done 0 ∧
  visited out.2
    = [(0, 10%Z); (0, 20%Z); (0, 50%Z); (0, 60%Z); (0, 30%Z)] ∧
  dicts out.2 !! 0 ≫= (.!! "x") = Some (VInt 10).
Proof. vm_compute. done. Qed.

(** ** The branch of the loop for a step that returned *)

Lemma bind_ext {A B} (c : M A) (k1 k2 : A → M B) (w : World) :
  (∀ a w1, k1 a w1 = k2 a w1) → bind c k1 w = bind c k2 w.
Proof. intros Hk. unfold bind. by destruct (c w) as [[a|x|] w1]. Qed.

Lemma exec_stmt_ext (load : string → load_result) (run1 run2 : eid → M unit)
    (e : eid) (s : stmt) (w : World) :
  (∀ c w0, run1 c w0 = run2 c w0) →
  exec_stmt load run1 e s w = exec_stmt load run2 e s w.
Proof.
  intros Hrun. revert w.
  induction s as [|line k IH|line k IH|k IH|k IH|f gd k IH|d key v k IH
                 |d k IH|k IH|tag|body IHb catches handler IHh k IHk];
    intros w; simpl; try done; try (by apply bind_ext).
  - unfold bind.
    assert (run_file load run1 e f gd w = run_file load run2 e f gd w) as ->.
    { unfold run_file. destruct (load f); try done.
      apply bind_ext. intros self w1. apply bind_ext. intros g w2.
      apply bind_ext. intros c w3. apply Hrun. }
    destruct (run_file load run2 e f gd w) as [[[]|x|] w1]; [apply IH|done..].
  - rewrite IHb.
    destruct (exec_stmt load run2 e body w) as [[[]|x|] w1]; [apply IHk| |done].
    destruct (catches x); [|done]. unfold bind. rewrite IHh.
    destruct (exec_stmt load run2 e (handler x) w1) as [[[]|y|] w2];
      [apply IHk|done..].
Qed.

Lemma invoke_return_resolved (c : control) (rt : Runtime) :
  return_resolved rt → return_resolved (invoke c rt).2.
Proof.
  unfold return_resolved. intros Hrt.
  destruct c; simpl; unfold goto, gosub, return_, halt;
    repeat case_match; simpl; eauto.
Qed.

(** [resolve] is [resolve_with_branch] at the body that the source has. *)
Lemma resolve_as_with_branch (rt : Runtime) :
  resolve rt =
  resolve_with_branch
    (λ rt, if _halted rt then Break
           else match _goto_line rt with
                | Some l => jump_to l rt
                | None => Break
                end) rt.
Proof. reflexivity. Qed.

Lemma resolve_with_branch_resolved (branch : Runtime → resolution)
    (rt : Runtime) :
  return_resolved rt → resolve_with_branch branch rt = resolve rt.
Proof.
  unfold return_resolved, resolve_with_branch, resolve. intros Hrt.
  destruct (_halted rt); [done|]. destruct (_goto_line rt); [done|].
  destruct (_returning rt); [|done].
  destruct (Hrt eq_refl) as [?|[? ?]]; done.
Qed.

Lemma resolve_no_return_branch_resolved (rt : Runtime) :
  return_resolved rt → resolve_no_return_branch rt = resolve rt.
Proof.
  unfold return_resolved, resolve_no_return_branch, resolve. intros Hrt.
  destruct (_halted rt); [done|]. destruct (_goto_line rt); [done|].
  destruct (_returning rt); [|done].
  destruct (Hrt eq_refl) as [?|[? ?]]; done.
Qed.

Section DeadBranch.
Variable load : string → load_result.

(** When a step called by the loop completes, a set returning flag comes
    with a halt request or a pending jump. *)
Lemma step_return_resolved (res : Runtime → resolution) (n : nat)
    (e : eid) (line : Z) (self : Runtime) (s : stmt) (w : World) :
  engines w !! e = Some self →
  ∃ self',
    engines (exec_stmt load (run_with load res n) e s
               (begin_step e line self w)).2 !! e = Some self' ∧
    return_resolved self'.
Proof.
  intros He.
  pose proof (step_evolves load res
    (λ a b, return_resolved a → return_resolved b) n e s
    (begin_step e line self w)) as [_ Hev].
  { done. } { eauto. } { intros c a. apply invoke_return_resolved. }
  destruct (Hev (reset_signals self).2) as (self' & Hself' & Hres).
  { simpl. apply list_lookup_insert_eq. by eapply lookup_lt_Some. }
  exists self'. split; [done|]. by apply Hres.
Qed.

(** Two resolutions that agree on such engine states give the same
    loop. *)
Lemma run_loop_resolution_ext (res1 res2 : Runtime → resolution) :
  (∀ rt, return_resolved rt → res1 rt = res2 rt) →
  ∀ n e w, run_loop load res1 n e w = run_loop load res2 n e w.
Proof.
  intros Hres. induction n as [|n IH]; intros e w; [done|].
  rewrite !run_loop_unfold.
  destruct (engines w !! e) as [self|] eqn:He; [|done].
  destruct (negb _); [done|]. destruct (_halted self); [done|].
  destruct (lines self !! line_idx self) as [line|]; [|done].
  destruct (program self !! line) as [s|]; [|done].
  rewrite (exec_stmt_ext load (run_with load res1 n) (run_with load res2 n)).
  2:{ intros c w0. unfold run_with, start. apply bind_ext.
      intros _ w1. apply IH. }
  destruct (step_return_resolved res2 n e line self (s (globals self)) w He)
    as (self' & Hself' & Hrr).
  destruct (exec_stmt load (run_with load res2 n) e (s (globals self))
              (begin_step e line self w)) as [[[]|x|] w']; [|done..].
  simpl in Hself'. rewrite Hself', (Hres self' Hrr).
  destruct (res2 self'); [done|apply IH|done].
Qed.

Lemma run_with_resolution_ext (res1 res2 : Runtime → resolution) :
  (∀ rt, return_resolved rt → res1 rt = res2 rt) →
  ∀ n e w, run_with load res1 n e w = run_with load res2 n e w.
Proof.
  intros Hres n e w. unfold run_with, start. apply bind_ext.
  intros _ w1. by apply run_loop_resolution_ext.
Qed.

(** C9. Whatever the body of the [elif self._returning:] branch, and also
    with the branch removed, [run] behaves the same on every engine and
    store, for every fuel: the branch is never entered.  After any step
    called by the loop, a set returning flag comes with a halt request or
    a pending jump target. *)
Theorem return_branch_is_dead (branch : Runtime → resolution)
    (fuel : nat) (e : eid) (w : World) :
  run_with load (resolve_with_branch branch) fuel e w = run load fuel e w ∧
  run_with load resolve_no_return_branch fuel e w = run load fuel e w ∧
  ∀ self line s,
    engines w !! e = Some self →
    ∃ self', engines (exec_stmt load (run load fuel) e s
                        (begin_step e line self w)).2 !! e = Some self' ∧
             (_returning self' = true → _halted self' = false →
              is_Some (_goto_line self')).
Proof.
  split; [|split].
  - apply run_with_resolution_ext. intros rt.
    apply resolve_with_branch_resolved.
  - apply run_with_resolution_ext. intros rt.
    apply resolve_no_return_branch_resolved.
  - intros self line s He.
    destruct (step_return_resolved resolve fuel e line self s w He)
      as (self' & Hself' & Hrr).
    exists self'. split; [done|]. intros Hr Hh.
    destruct (Hrr Hr) as [?|?]; [congruence|done].
Qed.
End DeadBranch.

(** ** The invariant of the call stack and of the jump target *)

Lemma return_snoc (rt : Runtime) (st : list (option Z)) (x : option Z) :
  stack rt = st ++ [x] →
  return_ rt =
    (None, set_returning true
             match x with
             | None => set_halted true (set_stack st rt)
             | Some l => set_goto_line (Some l) (set_stack st rt)
             end).
Proof.
  intros Hst. unfold return_. rewrite Hst, last_snoc, removelast_last.
  by destruct st.
Qed.

Lemma invoke_wf (c : control) (rt : Runtime) :
  wf_runtime rt → wf_runtime (invoke c rt).2.
Proof.
  intros (Hl & Hst & Hg). unfold wf_runtime. destruct c as [l|l| |]; simpl.
  - unfold goto. destruct (program rt !! l) eqn:Hp; simpl; [|done].
    split; [done|]. split; [done|]. intros l' [= <-]. eauto.
  - unfold gosub. destruct (program rt !! l) eqn:Hp; simpl; [|done].
    split; [done|]. split; [|intros l' [= <-]; eauto].
    intros l' Hin. apply elem_of_app in Hin as [Hin|Hin]; [by apply Hst|].
    apply list_elem_of_singleton in Hin. rewrite next_line_lookup in Hin.
    apply sorted_elem_of. rewrite <- Hl.
    eapply list_elem_of_lookup_2. eauto.
  - destruct (stack rt) as [|a st0] eqn:Hs.
    { unfold return_. rewrite Hs. simpl. by rewrite Hs. }
    assert (is_Some (last (stack rt))) as [x Hx]
      by (apply last_is_Some; by rewrite Hs).
    apply last_Some in Hx as [st Hx]. rewrite (return_snoc rt st x Hx).
    rewrite <- Hs, Hx in Hst.
    destruct x as [n|]; simpl.
    + split; [done|]. split.
      * intros l' Hin. apply Hst. apply elem_of_app. by left.
      * intros l' [= <-]. apply Hst. apply elem_of_app. right.
        by apply list_elem_of_singleton.
    + split; [done|]. split; [|done].
      intros l' Hin. apply Hst. apply elem_of_app. by left.
  - done.
Qed.

Lemma invoke_not_index_error (c : control) (rt : Runtime) (x : exn) :
  (invoke c rt).1 = Some x → not_index_error x.
Proof.
  destruct c; simpl; unfold goto, gosub, return_, halt;
    repeat case_match; simpl; intros [= <-]; by intros ?.
Qed.

Lemma reset_signals_wf (rt : Runtime) :
  wf_runtime rt → wf_runtime (reset_signals rt).2.
Proof. intros (Hl & Hst & Hg). by repeat split. Qed.

Lemma sub_runtime_wf (prog : ProgramType) (g : loc) (e : eid) :
  wf_runtime (sub_runtime prog g e).
Proof.
  split; [done|]. split; [|done]. simpl. intros l Hl.
  by apply elem_of_nil in Hl.
Qed.

Lemma fresh_runtime_wf (prog : ProgramType) (g : loc) :
  wf_runtime (fresh_runtime prog g).
Proof.
  split; [done|]. split; [|done]. simpl. intros l Hl.
  by apply elem_of_nil in Hl.
Qed.

Lemma set_line_idx_wf (i : nat) (rt : Runtime) :
  wf_runtime rt → wf_runtime (set_line_idx i rt).
Proof. intros (Hl & Hst & Hg). by repeat split. Qed.

(** With the invariant the position of the jump target is found, and the
    engine that goes on satisfies the invariant. *)
Lemma resolve_wf (rt : Runtime) :
  wf_runtime rt →
  match resolve rt with
  | Break => True
  | Continue rt' => wf_runtime rt'
  | Fault _ => False
  end.
Proof.
  intros Hwf. pose proof Hwf as (Hl & Hst & Hg).
  assert (Hjump : ∀ l, _goto_line rt = Some l →
            match jump_to l rt with
            | Break => True
            | Continue rt' => wf_runtime rt'
            | Fault _ => False
            end).
  { intros l Hgl. unfold jump_to.
    destruct (list_index_elem_of (lines rt) l) as [i ->].
    - rewrite Hl. apply sorted_elem_of. by apply Hg.
    - simpl. by apply set_line_idx_wf. }
  unfold resolve. destruct (_halted rt); [done|].
  destruct (_goto_line rt) as [l|] eqn:Hgl; [by apply Hjump|].
  destruct (_returning rt); [done|].
  unfold advance. case_bool_decide; [|done]. by apply set_line_idx_wf.
Qed.

Lemma wf_from_insert (base : nat) (w : World) (e : eid) (rt : Runtime) :
  wf_from base w → wf_runtime rt →
  wf_from base (set_engines (<[e := rt]> (engines w)) w).
Proof.
  intros Hw Hrt e' rt' Hbase. simpl.
  destruct (decide (e = e')) as [->|Hne].
  - intros Hlk. apply list_lookup_insert_Some in Hlk as [(_ & <- & _)|[? ?]];
      [done|congruence].
  - rewrite list_lookup_insert_ne by done. by apply Hw.
Qed.

Lemma wf_from_new_engine (base : nat) (w : World) (rt : Runtime) :
  wf_from base w → wf_runtime rt → wf_from base (with_new_engine rt w).
Proof.
  intros Hw Hrt e' rt' Hbase. simpl. intros Hlk.
  apply lookup_app_Some in Hlk as [Hlk|[_ Hlk]]; [by eapply Hw|].
  apply list_lookup_singleton_Some in Hlk as [_ <-]. done.
Qed.

Lemma wf_from_same_engines (base : nat) (w w' : World) :
  engines w' = engines w → wf_from base w → wf_from base w'.
Proof. intros Heq Hw e rt. rewrite Heq. apply Hw. Qed.

Lemma no_index_error_Raised {A} (x : exn) :
  not_index_error x → no_index_error (@Raised A x).
Proof. intros Hx l [= ->]. by apply (Hx l). Qed.

Section Safe.
Variable load : string → load_result.
Variable base : nat.

(** A step body of an engine at or above [base] keeps the invariant of all
    the engines from [base] on and does not raise the error of the lookup,
    when the nested runs do so. *)
Lemma exec_stmt_safe (run : eid → M unit) (e : eid) (s : stmt) (w : World) :
  base ≤ e →
  (∀ c w0, base ≤ c → wf_from base w0 →
           wf_from base (run c w0).2 ∧ no_index_error (run c w0).1) →
  wf_from base w →
  wf_from base (exec_stmt load run e s w).2 ∧
  no_index_error (exec_stmt load run e s w).1.
Proof.
  intros Hbase Hrun.
  apply (exec_stmt_Q load run e
           (λ w r w', wf_from base w → wf_from base w' ∧ no_index_error r)).
  - intros w0 Hw. split; [done|]. by intros l.
  - intros w0 x Hx Hw. split; [done|]. by apply no_index_error_Raised.
  - intros w0 r1 w1 r2 w2 H1 H2 Hw. apply H2. by apply H1.
  - intros c w0 rt He Hw. unfold call. rewrite He.
    assert (Hw' : wf_from base
              (set_engines (<[e:=(invoke c rt).2]> (engines w0)) w0)).
    { apply wf_from_insert; [done|]. apply invoke_wf. by eapply Hw. }
    destruct (invoke c rt).1 as [x|] eqn:Hx; simpl.
    + split; [done|]. apply no_index_error_Raised.
      by eapply invoke_not_index_error.
    + split; [done|]. by intros l.
  - intros d key v w0 m _ Hw. split; [|by intros l].
    by eapply wf_from_same_engines.
  - intros w0 Hw. split; [|by intros l]. by eapply wf_from_same_engines.
  - intros prog g w0 rt He w1 Hw. apply Hrun.
    + apply lookup_lt_Some in He. lia.
    + apply wf_from_new_engine; [done|apply sub_runtime_wf].
Qed.

Lemma start_safe (loop : eid → M unit) (e : eid) (w : World) :
  base ≤ e →
  (∀ w0, wf_from base w0 →
         wf_from base (loop e w0).2 ∧ no_index_error (loop e w0).1) →
  wf_from base w →
  wf_from base (start loop e w).2 ∧ no_index_error (start loop e w).1.
Proof.
  intros Hbase Hloop Hw. unfold start, bind, call.
  destruct (engines w !! e) as [rt|] eqn:He; simpl.
  - apply Hloop. apply wf_from_insert; [done|].
    apply set_line_idx_wf. by eapply Hw.
  - split; [done|]. apply no_index_error_Raised. by intros l.
Qed.

(** The loop keeps the invariant and never fails at [lines.index]. *)
Lemma run_loop_safe (n : nat) (e : eid) (w : World) :
  base ≤ e →
  wf_from base w →
  wf_from base (run_loop load resolve n e w).2 ∧
  no_index_error (run_loop load resolve n e w).1.
Proof.
  revert e w. induction n as [|n IH]; intros e w Hbase Hw.
  { simpl. split; [done|]. by intros l. }
  rewrite run_loop_unfold.
  destruct (engines w !! e) as [self|] eqn:He;
    [|split; [done|]; apply no_index_error_Raised; by intros l].
  destruct (negb _); [split; [done|]; by intros l|].
  destruct (_halted self); [split; [done|]; by intros l|].
  destruct (lines self !! line_idx self) as [line|];
    [|split; [done|]; apply no_index_error_Raised; by intros l].
  assert (Hself : wf_runtime self) by by eapply Hw.
  assert (Hw1 : wf_from base
            (set_engines (<[e:=(reset_signals self).2]> (engines w)) w)).
  { apply wf_from_insert; [done|]. by apply reset_signals_wf. }
  destruct (program self !! line) as [s|];
    [|split; [done|]; apply no_index_error_Raised; by intros l].
  destruct (exec_stmt_safe (run_with load resolve n) e (s (globals self))
              (begin_step e line self w)) as [Hw2 Hr2]; [done| |done|].
  { intros c w0 Hc Hw0. apply start_safe; [done| |done].
    intros w3 Hw3. by apply IH. }
  destruct (exec_stmt load (run_with load resolve n) e (s (globals self))
              (begin_step e line self w)) as [[[]|x|] w']; simpl in *;
    [|done..].
  destruct (engines w' !! e) as [self'|] eqn:He';
    [|split; [done|]; apply no_index_error_Raised; by intros l].
  pose proof (resolve_wf self' (Hw2 _ _ Hbase He')) as Hres.
  destruct (resolve self') as [|rt|x]; [split; [done|]; by intros l| |done].
  apply IH; [done|]. by apply wf_from_insert.
Qed.
End Safe.

(** C10. Every operation keeps the invariant of the engine object (return
    addresses on the call stack and the pending jump target are lines of
    the program, or the sentinel); with it the loop finds the position of the
    jump target.  Hence [run_program] never fails at the lookup
    [lines.index], whatever the program, the store and the fuel, and every
    engine object it made (its own and those of the nested runs) satisfies
    the invariant in the store it leaves. *)
Theorem jump_target_lookup_succeeds (load : string → load_result)
    (fuel : nat) (prog : ProgramType) (gd : option loc) (w : World) :
  let out := run_program load fuel prog gd w in
  no_index_error out.1 ∧
  (∀ e rt, length (engines w) ≤ e → engines out.2 !! e = Some rt →
           wf_runtime rt) ∧
  (∀ g, wf_runtime (fresh_runtime prog g)) ∧
  (∀ c rt, wf_runtime rt → wf_runtime (invoke c rt).2) ∧
  (∀ rt, wf_runtime rt → wf_runtime (reset_signals rt).2) ∧
  (∀ rt, wf_runtime rt →
         (∀ x, resolve rt ≠ Fault x) ∧
         (∀ rt', resolve rt = Continue rt' → wf_runtime rt')).
Proof.
  intros out. subst out.
  assert (Hmain :
    wf_from (length (engines w)) (run_program load fuel prog gd w).2 ∧
    no_index_error (run_program load fuel prog gd w).1).
  { destruct (run_program_unfold load fuel prog gd w)
      as (g & w1 & He1 & Hv1 & ->).
    destruct (run_loop_safe load (length (engines w)) fuel
                (length (engines w)) w1) as [Hw2 Hr2]; [done| |].
    { intros e rt Hbase. rewrite He1. intros Hlk.
      apply lookup_app_Some in Hlk as [Hlk|[_ Hlk]].
      - apply lookup_lt_Some in Hlk. lia.
      - apply list_lookup_singleton_Some in Hlk as [_ <-].
        apply fresh_runtime_wf. }
    destruct (run_loop load resolve fuel (length (engines w)) w1)
      as [[[]|x|] w2]; simpl in *.
    - destruct (engines w2 !! length (engines w)); simpl.
      + split; [done|]. by intros l.
      + split; [done|]. apply no_index_error_Raised. by intros l.
    - split; [done|]. intros l [= ->]. by apply (Hr2 l).
    - split; [done|]. by intros l. }
  destruct Hmain as [Hwf Hno].
  split; [done|]. split; [exact Hwf|].
  split; [apply fresh_runtime_wf|]. split; [apply invoke_wf|].
  split; [apply reset_signals_wf|].
  intros rt Hrt. pose proof (resolve_wf rt Hrt) as Hres.
  split.
  - intros x Hx. by rewrite Hx in Hres.
  - intros rt' Hrt'. by rewrite Hrt' in Hres.
Qed.

(** * Further properties of the engine *)

(** ** The line table and the resolution of a step *)

Lemma list_index_Some (l : list Z) (x : Z) (i : nat) :
  list_index x l = Some i → l !! i = Some x.
Proof.
  revert i. induction l as [|y l IH]; intros i; simpl; [done|].
  case_bool_decide.
  - intros [= <-]. simpl. by f_equal.
  - destruct (list_index x l) as [j|] eqn:Hj; simpl; [|done].
    intros [= <-]. simpl. by apply IH.
Qed.

(** X1. On the line table that [__init__] builds, [lines.index] and the
    subscript are inverse of each other, and [lines.index(L)] succeeds
    exactly for the lines of the program. *)
Theorem line_table_index (p : ProgramType) (L : Z) (i : nat) :
  (list_index L (sorted p) = Some i ↔ sorted p !! i = Some L) ∧
  (is_Some (list_index L (sorted p)) ↔ is_Some (p !! L)) ∧
  length (sorted p) = size p.
Proof.
  split; [|split].
  - split; [apply list_index_Some|].
    apply list_index_lookup, sorted_NoDup.
  - split.
    + intros [j Hj]. apply sorted_elem_of.
      eapply list_elem_of_lookup_2. by apply list_index_Some.
    + intros Hp. by apply list_index_elem_of, sorted_elem_of.
  - unfold sorted. rewrite merge_sort_Permutation, length_map.
    apply length_map_to_list.
Qed.

(** X2. What the loop does after a step that completed without a halt
    request, on an engine that satisfies the invariant: with a pending jump
    target [L] it goes on at the position of [L]; without one it goes on at
    the next higher line of the program, and stops when the current line
    is the highest. *)
Theorem resolve_next_line (rt : Runtime) (C : Z) :
  wf_runtime rt →
  return_resolved rt →
  lines rt !! line_idx rt = Some C →
  _halted rt = false →
  match _goto_line rt with
  | Some L =>
      ∃ i, resolve rt = Continue (set_line_idx i rt) ∧
           lines rt !! i = Some L ∧ is_Some (program rt !! L)
  | None =>
      match lines rt !! (line_idx rt + 1) with
      | Some n =>
          resolve rt = Continue (set_line_idx (line_idx rt + 1) rt) ∧
          following_line (program rt) C (Some n)
      | None => resolve rt = Break ∧ following_line (program rt) C None
      end
  end.
Proof.
  intros (Hl & Hst & Hg) Hrr HC Hh.
  destruct (_goto_line rt) as [L|] eqn:HgL.
  - destruct (list_index_elem_of (lines rt) L) as [i Hi].
    { rewrite Hl. apply sorted_elem_of. by apply Hg. }
    exists i. split; [|split; [by apply list_index_Some|by apply Hg]].
    unfold resolve, jump_to. by rewrite Hh, HgL, Hi.
  - assert (Hret : _returning rt = false).
    { destruct (_returning rt) eqn:Hr; [|done].
      destruct (Hrr Hr) as [?|[? ?]]; congruence. }
    rewrite resolve_quiet by done. unfold advance.
    pose proof (following_line_of_next (program rt) (line_idx rt) C) as Hf.
    rewrite <- Hl in Hf. specialize (Hf HC).
    destruct (lines rt !! (line_idx rt + 1)) as [n|] eqn:Hn.
    + rewrite bool_decide_eq_true_2; [done|]. by eapply lookup_lt_Some.
    + rewrite bool_decide_eq_false_2; [done|].
      apply lookup_ge_None in Hn. lia.
Qed.

Lemma resolve_next_line_witness :
  let rt := set_line_idx 1 (fresh_runtime prog_sequential 0) in
  match _goto_line rt with
  | Some L =>
      ∃ i, resolve rt = Continue (set_line_idx i rt) ∧
           lines rt !! i = Some L ∧ is_Some (program rt !! L)
  | None =>
      match lines rt !! (line_idx rt + 1) with
      | Some n =>
          resolve rt = Continue (set_line_idx (line_idx rt + 1) rt) ∧
          following_line (program rt) 20 (Some n)
      | None => resolve rt = Break ∧ following_line (program rt) 20 None
      end
  end.
Proof.
  intros rt.
  apply (resolve_next_line rt 20);
    [apply set_line_idx_wf, fresh_runtime_wf | by intros ?
    | vm_compute; reflexivity | reflexivity].
Defined.

(** ** [run_program] *)

Lemma run_program_start (load : string → load_result) (fuel : nat)
    (prog : ProgramType) (gd : option loc) (w : World) :
  run_program load fuel prog gd w =
    match run_loop load resolve fuel (length (engines w))
            (initial_store prog gd w) with
    | (Done _, w2) =>
        match engines w2 !! length (engines w) with
        | Some self => (Done (globals self), w2)
        | None => (Raised (BadHandle (length (engines w))), w2)
        end
    | (Raised x, w2) => (Raised x, w2)
    | (OutOfFuel, w2) => (OutOfFuel, w2)
    end.
Proof.
  assert (Hinit : Runtime_init prog gd None w
                  = (Done (length (engines w)), initial_store prog gd w)).
  { unfold Runtime_init, bind, ret, new_dict, initial_store, given_globals.
    by destruct gd. }
  unfold run_program. unfold bind at 1. rewrite Hinit.
  unfold bind at 1. unfold run, run_with, start.
  unfold bind at 1. unfold call.
  assert (Hlk : engines (initial_store prog gd w) !! length (engines w)
                = Some (fresh_runtime prog (given_globals gd w))).
  { unfold initial_store. simpl.
    apply list_lookup_middle. by destruct gd. }
  rewrite Hlk. simpl fst. simpl snd. cbv iota.
  replace (set_engines _ (initial_store prog gd w))
    with (initial_store prog gd w).
  2:{ symmetry. by apply set_engines_same. }
  destruct (run_loop load resolve fuel (length (engines w))
              (initial_store prog gd w)) as [[[]|x|] w2]; [|done..].
  unfold bind, get_engine, ret.
  by destruct (engines w2 !! length (engines w)).
Qed.

Lemma initial_store_lookup (prog : ProgramType) (gd : option loc)
    (w : World) :
  engines (initial_store prog gd w) !! length (engines w)
  = Some (fresh_runtime prog (given_globals gd w)).
Proof.
  unfold initial_store. simpl. apply list_lookup_middle. by destruct gd.
Qed.

(** No dict object is ever lost. *)
Lemma exec_stmt_dicts_length (load : string → load_result)
    (run : eid → M unit) (e : eid) (s : stmt) (w : World) :
  (∀ c w0, length (dicts w0) ≤ length (dicts (run c w0).2)) →
  length (dicts w) ≤ length (dicts (exec_stmt load run e s w).2).
Proof.
  intros Hrun.
  apply (exec_stmt_Q load run e
           (λ w _ w', length (dicts w) ≤ length (dicts w'))).
  - done.
  - done.
  - intros; lia.
  - intros c w0 rt He. unfold call. rewrite He.
    by destruct (invoke c rt).1.
  - intros d key v w0 m Hd. simpl. by rewrite length_insert.
  - intros w0. simpl. rewrite length_app. lia.
  - intros prog g w0 rt He w1. apply (Hrun _ w1).
Qed.

Lemma run_loop_dicts_length (load : string → load_result)
    (res : Runtime → resolution) (n : nat) (e : eid) (w : World) :
  length (dicts w) ≤ length (dicts (run_loop load res n e w).2).
Proof.
  revert e w. induction n as [|n IH]; intros e w; [done|].
  rewrite run_loop_unfold.
  destruct (engines w !! e) as [self|]; [|done].
  destruct (negb _); [done|]. destruct (_halted self); [done|].
  destruct (lines self !! line_idx self) as [line|]; [|done].
  destruct (program self !! line) as [s|]; [|done].
  assert (Hrun : ∀ c w0, length (dicts w0)
                         ≤ length (dicts (run_with load res n c w0).2)).
  { intros c w0. unfold run_with, start, bind, call.
    destruct (engines w0 !! c); simpl; [|done].
    apply (IH c (set_engines _ w0)). }
  pose proof (exec_stmt_dicts_length load (run_with load res n) e
                (s (globals self)) (begin_step e line self w) Hrun) as Hex.
  simpl in Hex.
  destruct (exec_stmt load (run_with load res n) e (s (globals self))
              (begin_step e line self w)) as [[[]|x|] w']; simpl in *;
    [|done..].
  destruct (engines w' !! e) as [self'|]; [|done].
  destruct (res self') as [|rt|x]; [done| |done].
  etrans; [exact Hex|]. apply (IH e (set_engines _ w')).
Qed.

(** X3. When [run_program] completes, what it returns is the dict it was
    given (be it an empty one), or else the dict newly made for the run,
    which was no dict of the store before; the engine is still bound to it,
    and it is a dict of the store that the run leaves. *)
Theorem run_program_returns_its_globals (load : string → load_result)
    (fuel : nat) (prog : ProgramType) (gd : option loc) (w : World)
    (g : loc) :
  (run_program load fuel prog gd w).1 = Done g →
  let out := run_program load fuel prog gd w in
  g = given_globals gd w ∧
  globals <$> engines out.2 !! length (engines w) = Some g ∧
  match gd with
  | Some l => g = l ∧ (is_Some (dicts w !! l) → is_Some (dicts out.2 !! l))
  | None => dicts w !! g = None ∧ is_Some (dicts out.2 !! g)
  end.
Proof.
  intros Hdone out. subst out. revert Hdone.
  rewrite run_program_start.
  destruct (run_loop_same_binding load fuel (length (engines w))
              (initial_store prog gd w) _ (initial_store_lookup prog gd w))
    as (rt' & Hrt' & Hb).
  pose proof (run_loop_dicts_length load resolve fuel (length (engines w))
                (initial_store prog gd w)) as Hlen.
  destruct (run_loop load resolve fuel (length (engines w))
              (initial_store prog gd w)) as [[[]|x|] w2]; simpl in *;
    [|done..].
  rewrite Hrt'. simpl. intros [= <-].
  destruct Hb as (_ & _ & Hg & _). simpl in Hg.
  split; [done|]. split; [by rewrite Hrt'|].
  destruct gd as [l|]; simpl in *.
  - split; [done|]. intros Hl. apply lookup_lt_is_Some.
    apply lookup_lt_is_Some in Hl. lia.
  - rewrite Hg. split; [by apply lookup_ge_None|].
    apply lookup_lt_is_Some. rewrite length_app in Hlen. simpl in Hlen. lia.
Qed.

Lemma run_program_returns_its_globals_witness :
  let w := mkWorld [{["n" := VInt 0]}; ∅] [] [] in
  let out := run_program no_files 4 prog_sequential (Some 1) w in
  1 = given_globals (Some 1) w ∧
  globals <$> engines out.2 !! length (engines w) = Some 1 ∧
  1 = 1 ∧ (is_Some (dicts w !! 1) → is_Some (dicts out.2 !! 1)).
Proof.
  intros w.
  apply (run_program_returns_its_globals no_files 4 prog_sequential
           (Some 1) w 1).
  vm_compute. reflexivity.
Defined.

(** ** Where the exceptions of a step body come from *)

Section ExecCases.
Variable load : string → load_result.
Variable run : eid → M unit.
Variable e : eid.
Variable Q : World → result unit → World → Prop.

Hypothesis Q_done : ∀ w, Q w (Done tt) w.
Hypothesis Q_seq : ∀ w r1 w1 r2 w2, Q w r1 w1 → Q w1 r2 w2 → Q w r2 w2.
Hypothesis Q_call : ∀ c w rt,
  engines w !! e = Some rt →
  Q w (call e (invoke c) w).1 (call e (invoke c) w).2.
Hypothesis Q_no_handle : ∀ w,
  engines w !! e = None → Q w (Raised (BadHandle e)) w.
Hypothesis Q_user : ∀ w tag, Q w (Raised (UserError tag)) w.
Hypothesis Q_bad_ref : ∀ w d,
  dicts w !! d = None → Q w (Raised (BadRef d)) w.
Hypothesis Q_load : ∀ w f x,
  load_error f (load f) = Some x → Q w (Raised x) w.
Hypothesis Q_setitem : ∀ d key v w m,
  dicts w !! d = Some m →
  Q w (Done tt) (set_dicts (<[d := <[key := v]> m]> (dicts w)) w).
Hypothesis Q_new_dict : ∀ w, Q w (Done tt) (set_dicts (dicts w ++ [∅]) w).
Hypothesis Q_nested : ∀ f gd prog g w rt,
  load f = Loaded prog →
  engines w !! e = Some rt →
  chosen_globals w rt gd = Some g →
  let w1 := with_new_engine (sub_runtime prog g e) w in
  Q w (run (length (engines w)) w1).1 (run (length (engines w)) w1).2.

Lemma run_file_outcome (f : string) (gd : option loc) (w : World) :
  Q w (run_file load run e f gd w).1 (run_file load run e f gd w).2.
Proof.
  destruct (load f) as [| | |prog] eqn:Hload.
  1-3: unfold run_file; rewrite Hload; simpl; apply (Q_load w f);
       by rewrite Hload.
  destruct (engines w !! e) as [rt|] eqn:He.
  2:{ unfold run_file, bind, get_engine. rewrite Hload, He. simpl.
      by apply Q_no_handle. }
  destruct (chosen_globals w rt gd) as [g|] eqn:Hg.
  - rewrite (run_file_loaded load run e f gd w prog rt g) by done.
    by eapply Q_nested.
  - unfold chosen_globals in Hg. destruct gd as [l|]; [|done].
    destruct (dicts w !! l) as [m|] eqn:Hl; [done|].
    unfold run_file, bind, get_engine, get_dict. rewrite Hload, He, Hl.
    simpl. by apply Q_bad_ref.
Qed.

Lemma call_cases (c : control) (w : World) :
  Q w (call e (invoke c) w).1 (call e (invoke c) w).2.
Proof.
  destruct (engines w !! e) as [rt|] eqn:He; [by eapply Q_call|].
  unfold call. rewrite He. simpl. by apply Q_no_handle.
Qed.

Lemma bind_cases (c : M unit) (k : M unit) (w : World) :
  Q w (c w).1 (c w).2 →
  (∀ w1, Q w1 (k w1).1 (k w1).2) →
  Q w ((c ;; k) w).1 ((c ;; k) w).2.
Proof.
  intros Hc Hk. unfold bind.
  destruct (c w) as [[[]|x|] w1]; simpl in *; [|done..].
  eapply Q_seq; [exact Hc|apply Hk].
Qed.

Lemma exec_stmt_cases (s : stmt) (w : World) :
  Q w (exec_stmt load run e s w).1 (exec_stmt load run e s w).2.
Proof.
  revert w.
  induction s as [|line k IH|line k IH|k IH|k IH|f gd k IH|d key v k IH
                 |d k IH|k IH|tag|body IHb catches handler IHh k IHk];
    intros w; simpl.
  - apply Q_done.
  - apply bind_cases; [apply (call_cases (CGoto line))|done].
  - apply bind_cases; [apply (call_cases (CGosub line))|done].
  - apply bind_cases; [apply (call_cases CReturn)|done].
  - apply bind_cases; [apply (call_cases CHalt)|done].
  - apply bind_cases; [apply run_file_outcome|done].
  - apply bind_cases; [|done]. unfold setitem, bind, get_dict.
    destruct (dicts w !! d) as [m|] eqn:Hd; simpl.
    + by apply Q_setitem.
    + by apply Q_bad_ref.
  - unfold bind, get_dict.
    destruct (dicts w !! d) as [m|] eqn:Hd; simpl; [apply IH|].
    by apply Q_bad_ref.
  - unfold bind, new_dict. eapply Q_seq; [apply Q_new_dict|apply IH].
  - apply Q_user.
  - specialize (IHb w).
    destruct (exec_stmt load run e body w) as [[[]|x|] w1]; simpl in *.
    + eapply Q_seq; [exact IHb|apply IHk].
    + destruct (catches x); [|done].
      eapply Q_seq; [exact IHb|].
      apply bind_cases; [apply IHh|apply IHk].
    + done.
Qed.
End ExecCases.

(** ** The subscripts of [run] never fail *)

Lemma no_engine_fault_Raised {A} (x : exn) :
  is_engine_fault x = false → no_engine_fault (@Raised A x).
Proof. by intros Hx y [= <-]. Qed.

Lemma no_engine_fault_Done {A} (a : A) : no_engine_fault (Done a).
Proof. by intros y. Qed.

Lemma invoke_no_engine_fault (c : control) (rt : Runtime) (x : exn) :
  (invoke c rt).1 = Some x → is_engine_fault x = false.
Proof.
  destruct c; simpl; unfold goto, gosub, return_, halt;
    repeat case_match; simpl; by intros [= <-].
Qed.

Section Sound.
Variable load : string → load_result.
Variable base : nat.

Lemma exec_stmt_sound (n : nat) (e : eid) (s : stmt) (w : World) :
  base ≤ e →
  (∀ c w0, base ≤ c → sound_from base c w0 →
           no_engine_fault (run_with load resolve n c w0).1) →
  sound_from base e w →
  sound_from base e (exec_stmt load (run_with load resolve n) e s w).2 ∧
  no_engine_fault (exec_stmt load (run_with load resolve n) e s w).1.
Proof.
  intros Hbase Hrun.
  apply (exec_stmt_cases load (run_with load resolve n) e
           (λ w r w', sound_from base e w →
                      sound_from base e w' ∧ no_engine_fault r)).
  - intros w0 Hw. split; [done|apply no_engine_fault_Done].
  - intros w0 r1 w1 r2 w2 H1 H2 Hw. apply H2. by apply H1.
  - intros c w0 rt He [Hw Hlt]. unfold call. rewrite He.
    assert (Hw' : sound_from base e
              (set_engines (<[e:=(invoke c rt).2]> (engines w0)) w0)).
    { split; [|simpl; by rewrite length_insert].
      apply wf_from_insert; [done|]. apply invoke_wf. by eapply Hw. }
    destruct (invoke c rt).1 as [x|] eqn:Hx; simpl.
    + split; [done|]. apply no_engine_fault_Raised.
      by eapply invoke_no_engine_fault.
    + split; [done|apply no_engine_fault_Done].
  - intros w0 He [_ Hlt]. apply lookup_ge_None in He. lia.
  - intros w0 tag Hw. split; [done|]. by apply no_engine_fault_Raised.
  - intros w0 d _ Hw. split; [done|]. by apply no_engine_fault_Raised.
  - intros w0 f x Hx Hw. split; [done|]. apply no_engine_fault_Raised.
    destruct (load f); simpl in Hx; by simplify_eq.
  - intros d key v w0 m _ [Hw Hlt]. split; [|apply no_engine_fault_Done].
    split; [by eapply wf_from_same_engines|done].
  - intros w0 [Hw Hlt]. split; [|apply no_engine_fault_Done].
    split; [by eapply wf_from_same_engines|done].
  - intros f gd prog g w0 rt _ He _ w1 [Hw Hlt].
    assert (Hw1 : sound_from base (length (engines w0)) w1).
    { split; [apply wf_from_new_engine; [done|apply sub_runtime_wf]|].
      simpl. rewrite length_app. simpl. lia. }
    split; [split|].
    + apply (start_safe base); [lia| |apply Hw1].
      intros w3 Hw3. apply run_loop_safe; [lia|done].
    + pose proof (run_with_others_kept load resolve n (length (engines w0)) w1)
        as [Hlen _].
      simpl in Hlen. rewrite length_app in Hlen. simpl in Hlen. lia.
    + apply Hrun; [lia|done].
Qed.

Lemma run_loop_sound (n : nat) (e : eid) (w : World) :
  base ≤ e →
  sound_from base e w →
  no_engine_fault (run_loop load resolve n e w).1.
Proof.
  revert e w. induction n as [|n IH]; intros e w Hbase [Hw Hlt].
  { by intros x. }
  rewrite run_loop_unfold.
  destruct (lookup_lt_is_Some_2 _ _ Hlt) as [self He]. rewrite He.
  case_bool_decide as Hidx; simpl; [|apply no_engine_fault_Done].
  destruct (_halted self); [apply no_engine_fault_Done|].
  destruct (lookup_lt_is_Some_2 _ _ Hidx) as [line Hline]. rewrite Hline.
  assert (Hself : wf_runtime self) by by eapply Hw.
  assert (is_Some (program self !! line)) as [s Hs].
  { apply sorted_elem_of. destruct Hself as [<- _].
    eapply list_elem_of_lookup_2. eauto. }
  rewrite Hs.
  assert (Hw1 : sound_from base e (begin_step e line self w)).
  { split; [|simpl; by rewrite length_insert].
    apply (wf_from_insert base w); [done|]. by apply reset_signals_wf. }
  destruct (exec_stmt_sound n e (s (globals self))
              (begin_step e line self w)) as [[Hw2 Hlt2] Hr2]; [done| |done|].
  { intros c w0 Hc [Hw0 Hlt0]. unfold run_with, start, bind, call.
    destruct (lookup_lt_is_Some_2 _ _ Hlt0) as [rt Hrt]. rewrite Hrt. simpl.
    apply IH; [done|]. split; [|simpl; by rewrite length_insert].
    apply wf_from_insert; [done|]. apply set_line_idx_wf. by eapply Hw0. }
  destruct (exec_stmt load (run_with load resolve n) e (s (globals self))
              (begin_step e line self w)) as [[[]|x|] w']; simpl in *;
    [|done..].
  destruct (lookup_lt_is_Some_2 _ _ Hlt2) as [self' He']. rewrite He'.
  pose proof (resolve_wf self' (Hw2 _ _ Hbase He')) as Hres.
  destruct (resolve self') as [|rt|x]; [apply no_engine_fault_Done| |done].
  apply IH; [done|]. split; [|simpl; by rewrite length_insert].
  by apply wf_from_insert.
Qed.
End Sound.

(** X4. [run_program] never fails at a subscript of the loop of [run]:
    neither [self.lines[self.line_idx]] nor [self.program[line]] nor
    [self.lines.index(...)] raises, in its own engine or in a nested one,
    and no engine handle is used that is not of the store; whatever the
    program, the loader, the store and the fuel. *)
Theorem run_program_subscripts_succeed (load : string → load_result)
    (fuel : nat) (prog : ProgramType) (gd : option loc) (w : World) :
  no_engine_fault (run_program load fuel prog gd w).1.
Proof.
  rewrite run_program_start.
  assert (Hs : sound_from (length (engines w)) (length (engines w))
                 (initial_store prog gd w)).
  { split.
    - intros e rt Hbase Hlk.
      assert (He : engines (initial_store prog gd w)
                   = engines w ++ [fresh_runtime prog (given_globals gd w)])
        by (unfold initial_store; simpl; by destruct gd).
      rewrite He in Hlk.
      apply lookup_app_Some in Hlk as [Hlk|[_ Hlk]].
      + apply lookup_lt_Some in Hlk. lia.
      + apply list_lookup_singleton_Some in Hlk as [_ <-].
        apply fresh_runtime_wf.
    - eapply lookup_lt_Some. apply initial_store_lookup. }
  pose proof (run_loop_sound load (length (engines w)) fuel
                (length (engines w)) _ (le_n _) Hs) as Hno.
  pose proof (run_loop_others_kept load resolve fuel (length (engines w))
                (initial_store prog gd w)) as [Hlen _].
  destruct (run_loop load resolve fuel (length (engines w))
              (initial_store prog gd w)) as [[[]|x|] w2]; simpl in *.
  - destruct (lookup_lt_is_Some_2 (engines w2) (length (engines w)))
      as [self ->]; [|apply no_engine_fault_Done].
    rewrite length_app in Hlen. simpl in Hlen. destruct gd; simpl in *; lia.
  - intros y [= <-]. by apply (Hno x).
  - by intros y.
Qed.

(** ** A halted engine *)

(** X5. The halt flag is never cleared: [run] on an engine object whose
    flag is set resets the instruction pointer and calls no step, and no
    step body run on such an engine, with whatever nested runs, leaves it
    with the flag cleared. *)
Theorem halted_engine_stays_halted (load : string → load_result) (n : nat)
    (e : eid) (w : World) (rt : Runtime) :
  engines w !! e = Some rt →
  _halted rt = true →
  run load (S n) e w
    = (Done tt, set_engines (<[e := set_line_idx 0 rt]> (engines w)) w) ∧
  ∀ m s, ∃ rt', engines (exec_stmt load (run load m) e s w).2 !! e = Some rt' ∧
                _halted rt' = true.
Proof.
  intros He Hh. split.
  - unfold run, run_with, start, bind, call. rewrite He. simpl fst. cbv iota.
    apply (run_loop_exit load resolve n e _ (set_line_idx 0 rt)).
    + simpl. apply list_lookup_insert_eq. by eapply lookup_lt_Some.
    + by right.
  - intros m s.
    destruct (step_evolves load resolve
                (λ a b, _halted a = true → _halted b = true) m e s w)
      as [_ Hev]; [done|eauto|intros c a; apply invoke_halted_sticky|].
    destruct (Hev rt He) as (rt' & Hrt' & Hh'). exists rt'. eauto.
Qed.

Lemma halted_engine_stays_halted_witness :
  let rt := set_halted true (fresh_runtime prog_sequential 0) in
  let w := mkWorld [∅] [rt] [] in
  run no_files 3 0 w
    = (Done tt, set_engines (<[0 := set_line_idx 0 rt]> (engines w)) w) ∧
  ∀ m s, ∃ rt', engines (exec_stmt no_files (run no_files m) 0 s w).2 !! 0
                = Some rt' ∧
                _halted rt' = true.
Proof.
  intros rt w.
  apply (halted_engine_stays_halted no_files 2 0 w rt); reflexivity.
Defined.

(** ** Errors of a nested invocation *)

Lemma run_loop_raises (load : string → load_result) (n : nat) (e : eid)
    (w w' : World) (self : Runtime) (line : Z) (s : nat → stmt) (x : exn) :
  engines w !! e = Some self →
  line_idx self < length (lines self) →
  _halted self = false →
  lines self !! line_idx self = Some line →
  program self !! line = Some s →
  exec_stmt load (run load n) e (s (globals self)) (begin_step e line self w)
    = (Raised x, w') →
  run_loop load resolve (S n) e w = (Raised x, w').
Proof.
  intros He Hidx Hh Hline Hs Hex.
  rewrite (run_loop_iteration load resolve n e w self line s) by done.
  unfold run in Hex. by rewrite Hex.
Qed.

(** X6. The errors of [run_file] surface from the run of the parent.  When
    the step of the current line calls [run_file] first and the file
    cannot be loaded, [run] raises the error of the loader with the store
    as it was at the call: no engine object was made and no other line is
    called.  When the nested run raises, [run] raises the same exception
    with the store as the nested run left it. *)
Theorem run_file_errors_surface (load : string → load_result) (n : nat)
    (e : eid) (w : World) (self : Runtime) (line : Z) (s : nat → stmt)
    (f : string) (gd : option loc) (k : stmt) :
  engines w !! e = Some self →
  line_idx self < length (lines self) →
  _halted self = false →
  lines self !! line_idx self = Some line →
  program self !! line = Some s →
  s (globals self) = RunFile f gd k →
  let w0 := begin_step e line self w in
  (∀ x, load_error f (load f) = Some x →
        run_loop load resolve (S n) e w = (Raised x, w0)) ∧
  (∀ prog g x w2,
     load f = Loaded prog →
     chosen_globals w0 (reset_signals self).2 gd = Some g →
     run load n (length (engines w0))
       (with_new_engine (sub_runtime prog g e) w0) = (Raised x, w2) →
     run_loop load resolve (S n) e w = (Raised x, w2)).
Proof.
  intros He Hidx Hh Hline Hs Hbody w0.
  assert (Hexec : exec_stmt load (run load n) e (s (globals self)) w0
            = (run_file load (run load n) e f gd ;;
               exec_stmt load (run load n) e k) w0)
    by by rewrite Hbody.
  split.
  - intros x Hx.
    apply (run_loop_raises load n e w w0 self line s x); try done.
    fold w0. rewrite Hexec. unfold bind, run_file.
    destruct (load f); simpl in Hx; by simplify_eq.
  - intros prog g x w2 Hload Hg Hnested.
    apply (run_loop_raises load n e w w2 self line s x); try done.
    fold w0. rewrite Hexec. unfold bind.
    rewrite (run_file_loaded load (run load n) e f gd w0 prog
               (reset_signals self).2 g); [by rewrite Hnested|done| |done].
    subst w0. simpl. apply list_lookup_insert_eq. by eapply lookup_lt_Some.
Qed.

Lemma run_file_errors_surface_witness :
  let self := fresh_runtime prog_nested 0 in
  let w := mkWorld [∅] [self] [] in
  let w0 := begin_step 0 10 self w in
  (∀ x, load_error "subprog.py" (no_files "subprog.py") = Some x →
        run_loop no_files resolve 3 0 w = (Raised x, w0)) ∧
  (∀ prog g x w2,
     no_files "subprog.py" = Loaded prog →
     chosen_globals w0 (reset_signals self).2 (Some 0) = Some g →
     run no_files 2 (length (engines w0))
       (with_new_engine (sub_runtime prog g 0) w0) = (Raised x, w2) →
     run_loop no_files resolve 3 0 w = (Raised x, w2)).
Proof.
  intros self w.
  apply (run_file_errors_surface no_files 2 0 w self 10
           (λ g, RunFile "subprog.py" (Some g) Skip) "subprog.py" (Some 0)
           Skip);
    [reflexivity | vm_compute; lia | reflexivity | reflexivity
    | reflexivity | reflexivity].
Defined.

(** The exception of the nested run of [bad_subprog] comes out of
    [run_program]; line 20 of the parent is not called, and what line 10
    wrote before the call is in the store. *)
Example nested_exception_run :
  let out := run_program bad_subprog_file 5 prog_runs_bad None empty_world in
  out.1 = Raised ReturnWithoutGosub ∧
  visited out.2 = [(0, 10%Z); (1, 10%Z)] ∧
  dicts out.2 !! 0 ≫= (.!! "before") = Some (VBool true) ∧
  dicts out.2 !! 0 ≫= (.!! "after") = None.
Proof. vm_compute. done. Qed.

(** ** The discipline of the call stack *)

Lemma gosubs_push (ls : list Z) (rt : Runtime) :
  Forall (λ L, is_Some (program rt !! L)) ls →
  ∃ rt', invoke_all (map CGosub ls) rt = (None, rt') ∧
         program rt' = program rt ∧
         ∃ xs, stack rt' = stack rt ++ xs ∧ length xs = length ls.
Proof.
  revert rt. induction ls as [|L ls IH]; intros rt Hall.
  { exists rt. split; [done|]. split; [done|].
    exists []. by rewrite app_nil_r. }
  apply Forall_cons in Hall as [[s HL] Hall]. simpl.
  unfold gosub at 1. rewrite HL.
  match goal with
  | |- context [invoke_all _ ?r] => destruct (IH r) as (rt' & Hrt' & Hp & xs & Hxs & Hlen)
  end; [done|].
  exists rt'. split; [done|]. split; [done|].
  simpl in Hxs. rewrite <- app_assoc in Hxs. eexists. split; [exact Hxs|].
  simpl. by rewrite Hlen.
Qed.

Lemma returns_pop (xs : list (option Z)) (st : list (option Z))
    (rt : Runtime) :
  stack rt = st ++ xs →
  ∃ rt', invoke_all (replicate (length xs) CReturn) rt = (None, rt') ∧
         stack rt' = st.
Proof.
  revert rt. induction xs as [|x xs IH] using rev_ind; intros rt Hst.
  { exists rt. split; [done|]. by rewrite app_nil_r in Hst. }
  rewrite length_app. simpl. rewrite Nat.add_1_r. simpl.
  rewrite app_assoc in Hst. rewrite (return_snoc rt _ x Hst).
  match goal with
  | |- context [invoke_all _ ?r] => destruct (IH r) as (rt' & Hrt' & Hs)
  end; [by destruct x|].
  by exists rt'.
Qed.

(** X7. The call stack is used last in, first out, and is never popped
    below what a sequence of calls pushed: any number of [gosub] to lines
    of the program followed by as many [return_] raises nothing and leaves
    the call stack as it was; from an empty call stack one more [return_]
    raises the unbalanced-return error. *)
Theorem gosub_return_balanced (ls : list Z) (rt : Runtime) :
  Forall (λ L, is_Some (program rt !! L)) ls →
  (∃ rt', invoke_all (map CGosub ls ++ replicate (length ls) CReturn) rt
          = (None, rt') ∧
          stack rt' = stack rt) ∧
  (stack rt = [] →
   (invoke_all (map CGosub ls ++ replicate (S (length ls)) CReturn) rt).1
   = Some ReturnWithoutGosub).
Proof.
  intros Hall.
  destruct (gosubs_push ls rt Hall) as (rt1 & H1 & _ & xs & Hxs & Hlen).
  destruct (returns_pop xs (stack rt) rt1 Hxs) as (rt2 & H2 & Hst2).
  rewrite Hlen in H2.
  assert (Happ : ∀ cs1 cs2 a b,
            invoke_all cs1 a = (None, b) →
            invoke_all (cs1 ++ cs2) a = invoke_all cs2 b).
  { induction cs1 as [|c cs1 IH]; intros cs2 a b; simpl.
    - by intros [= ->].
    - destruct (invoke c a) as [[x|] a1]; [done|]. apply IH. }
  split.
  - exists rt2. split; [|done]. by rewrite (Happ _ _ _ _ H1).
  - intros Hempty. rewrite (Happ _ _ _ _ H1).
    replace (S (length ls)) with (length ls + 1) by lia.
    rewrite replicate_add, (Happ _ _ _ _ H2). simpl.
    unfold return_. by rewrite Hst2, Hempty.
Qed.

Lemma gosub_return_balanced_witness :
  let rt := set_line_idx 1 (fresh_runtime prog_gosub_return 0) in
  (∃ rt', invoke_all (map CGosub [50%Z; 60%Z]
                        ++ replicate (length [50%Z; 60%Z]) CReturn) rt
          = (None, rt') ∧
          stack rt' = stack rt) ∧
  (stack rt = [] →
   (invoke_all (map CGosub [50%Z; 60%Z]
                  ++ replicate (S (length [50%Z; 60%Z])) CReturn) rt).1
   = Some ReturnWithoutGosub).
Proof.
  intros rt.
  apply (gosub_return_balanced [50%Z; 60%Z] rt).
  repeat constructor; vm_compute; eauto.
Defined.

(** ** The dicts that a run writes to *)

Lemma dicts_kept_refl (g : loc) (w : World) : dicts_kept g w w.
Proof. by split. Qed.

Lemma dicts_kept_trans (g : loc) (w1 w2 w3 : World) :
  dicts_kept g w1 w2 → dicts_kept g w2 w3 → dicts_kept g w1 w3.
Proof.
  intros [Hl1 Hk1] [Hl2 Hk2]. split; [lia|].
  intros d Hd Hne. rewrite Hk2, Hk1; [done..|lia|done].
Qed.

Lemma dicts_kept_same (g : loc) (w w' : World) :
  dicts w' = dicts w → dicts_kept g w w'.
Proof. intros Heq. split; by rewrite Heq. Qed.

Lemma call_dicts (e : eid) (op : Runtime → option exn * Runtime)
    (w : World) :
  dicts (call e op w).2 = dicts w.
Proof.
  unfold call. destruct (engines w !! e) as [rt|]; [|done].
  by destruct (op rt).1.
Qed.

Section Confined.
Variable load : string → load_result.
Hypothesis load_confined : confined_files load.

Lemma exec_keeps_globals (n : nat) (e : eid) (s : stmt) (w : World)
    (rt : Runtime) :
  engines w !! e = Some rt →
  ∃ rt', engines (exec_stmt load (run_with load resolve n) e s w).2 !! e
         = Some rt' ∧
         globals rt' = globals rt.
Proof.
  intros He.
  destruct (step_evolves load resolve same_binding n e s w) as [_ Hev];
    [apply same_binding_refl|apply same_binding_trans
    |apply invoke_same_binding|].
  destruct (Hev rt He) as (rt' & Hrt' & _ & _ & Hg & _). eauto.
Qed.

(** A confined body of an engine bound to [g] changes no dict but [g],
    when the nested runs of confined programs do so. *)
Lemma exec_stmt_confined (n : nat) (e : eid) (g : loc) (s : stmt)
    (w : World) (rt : Runtime) :
  (∀ c w0 rtc, engines w0 !! c = Some rtc →
               confined_program (program rtc) →
               dicts_kept (globals rtc) w0 (run_with load resolve n c w0).2) →
  confined g s →
  engines w !! e = Some rt →
  globals rt = g →
  dicts_kept g w (exec_stmt load (run_with load resolve n) e s w).2.
Proof.
  intros Hrun. revert w rt.
  assert (Hcall : ∀ c k w rt,
    (∀ w1 rt1, engines w1 !! e = Some rt1 → globals rt1 = g →
       dicts_kept g w1 (exec_stmt load (run_with load resolve n) e k w1).2) →
    engines w !! e = Some rt → globals rt = g →
    dicts_kept g w
      ((call e (invoke c) ;; exec_stmt load (run_with load resolve n) e k) w).2).
  { intros c k w rt IH He Hg. unfold bind.
    pose proof (call_dicts e (invoke c) w) as Hd.
    pose proof (call_lookup e (invoke c) w rt He) as Hlk.
    destruct (call e (invoke c) w) as [[[]|x|] w1]; simpl in *;
      try (by apply dicts_kept_same).
    eapply dicts_kept_trans; [by apply dicts_kept_same|].
    eapply IH; [exact Hlk|].
    destruct (invoke_same_binding c rt) as (_ & _ & -> & _). done. }
  induction s as [|line k IH|line k IH|k IH|k IH|f gd k IH|d key v k IH
                 |d k IH|k IH|tag|body IHb catches handler IHh k IHk];
    intros w rt Hs He Hg; simpl in Hs.
  - apply dicts_kept_refl.
  - by apply (Hcall (CGoto line) k w rt); [intros; eapply IH|..].
  - by apply (Hcall (CGosub line) k w rt); [intros; eapply IH|..].
  - by apply (Hcall CReturn k w rt); [intros; eapply IH|..].
  - by apply (Hcall CHalt k w rt); [intros; eapply IH|..].
  - destruct Hs as [Hgd Hk]. simpl. unfold bind.
    assert (Hrf : dicts_kept g w
              (run_file load (run_with load resolve n) e f gd w).2 ∧
            engines (run_file load (run_with load resolve n) e f gd w).2 !! e
            = Some rt).
    { destruct (run_file_cases load (run_with load resolve n) e f gd w)
        as [(x & _ & ->)|(p & rt0 & g0 & Hp & Hrt0 & Hg0 & ->)];
        [split; [apply dicts_kept_refl|done]|].
      simplify_eq.
      assert (g0 = globals rt) as ->.
      { destruct Hgd as [->| ->]; [done|].
        destruct Hg0 as (m & _ & ->). by case_bool_decide. }
      split.
      - pose proof (Hrun (length (engines w))
          (with_new_engine (sub_runtime p (globals rt) e) w)
          (sub_runtime p (globals rt) e)) as Hn.
        simpl in Hn. apply Hn; [by apply list_lookup_middle|].
        by eapply load_confined.
      - destruct (nested_keeps_all (sub_runtime p (globals rt) e) w _
                    (run_with_others_kept load resolve n (length (engines w))
                       (with_new_engine (sub_runtime p (globals rt) e) w)))
          as [_ Hk0].
        rewrite Hk0; [done|]. by eapply lookup_lt_Some. }
    destruct Hrf as [Hd1 He1].
    destruct (run_file load (run_with load resolve n) e f gd w)
      as [[[]|x|] w1]; simpl in *; [|done..].
    eapply dicts_kept_trans; [exact Hd1|]. by eapply IH.
  - destruct Hs as [-> Hk]. simpl. unfold setitem, bind, get_dict.
    destruct (dicts w !! g) as [m|] eqn:Hm; simpl; [|apply dicts_kept_refl].
    eapply dicts_kept_trans; [|by eapply (IH (set_dicts _ w))].
    split; simpl; [by rewrite length_insert|].
    intros d' _ Hne. by rewrite list_lookup_insert_ne.
  - simpl. unfold bind, get_dict.
    destruct (dicts w !! d) as [m|]; simpl; [|apply dicts_kept_refl].
    by eapply IH.
  - simpl. unfold bind, new_dict.
    eapply dicts_kept_trans; [|by eapply (IH _ (set_dicts _ w))].
    split; simpl; [rewrite length_app; lia|].
    intros d' Hd' _. by apply lookup_app_l.
  - apply dicts_kept_refl.
  - destruct Hs as (Hb & Hh & Hk). simpl.
    specialize (IHb w rt Hb He Hg).
    destruct (exec_keeps_globals n e body w rt He) as (rt1 & He1 & Hg1).
    destruct (exec_stmt load (run_with load resolve n) e body w)
      as [[[]|x|] w1]; simpl in *; [| |done].
    + eapply dicts_kept_trans; [exact IHb|]. eapply IHk; [done..|congruence].
    + destruct (catches x); [|done]. unfold bind.
      assert (Hg1' : globals rt1 = g) by congruence.
      specialize (IHh x w1 rt1 (Hh x) He1 Hg1').
      destruct (exec_keeps_globals n e (handler x) w1 rt1 He1)
        as (rt2 & He2 & Hg2).
      destruct (exec_stmt load (run_with load resolve n) e (handler x) w1)
        as [[[]|y|] w2]; simpl in *;
        try (by eapply dicts_kept_trans).
      eapply dicts_kept_trans; [exact IHb|].
      eapply dicts_kept_trans; [exact IHh|].
      eapply IHk; [done..|congruence].
Qed.

(** The run of a confined program changes no dict but the one its engine
    is bound to. *)
Lemma run_loop_confined (n : nat) (e : eid) (w : World) (rt : Runtime) :
  engines w !! e = Some rt →
  confined_program (program rt) →
  dicts_kept (globals rt) w (run_loop load resolve n e w).2.
Proof.
  revert e w rt. induction n as [|n IH]; intros e w rt He Hp;
    [apply dicts_kept_refl|].
  assert (Hrun : ∀ c w0 rtc, engines w0 !! c = Some rtc →
            confined_program (program rtc) →
            dicts_kept (globals rtc) w0 (run_with load resolve n c w0).2).
  { intros c w0 rtc Hc Hpc. unfold run_with, start, bind.
    pose proof (call_dicts c (λ rt, (None, set_line_idx 0 rt)) w0) as Hd.
    pose proof (call_lookup c (λ rt, (None, set_line_idx 0 rt)) w0 rtc Hc)
      as Hlk.
    destruct (call c (λ rt, (None, set_line_idx 0 rt)) w0)
      as [[[]|x|] w1]; simpl in *; try (by apply dicts_kept_same).
    eapply dicts_kept_trans; [by apply dicts_kept_same|].
    by apply (IH c w1 _ Hlk). }
  rewrite run_loop_unfold, He.
  destruct (negb _); [apply dicts_kept_refl|].
  destruct (_halted rt); [apply dicts_kept_refl|].
  destruct (lines rt !! line_idx rt) as [line|]; [|apply dicts_kept_refl].
  destruct (program rt !! line) as [s|] eqn:Hs;
    [|by apply dicts_kept_same].
  assert (He0 : engines (begin_step e line rt w) !! e
                = Some (reset_signals rt).2).
  { simpl. apply list_lookup_insert_eq. by eapply lookup_lt_Some. }
  pose proof (exec_stmt_confined n e (globals rt) (s (globals rt))
                (begin_step e line rt w) _ Hrun (Hp _ _ _ Hs) He0 eq_refl)
    as Hex.
  destruct (step_evolves load resolve same_binding n e (s (globals rt))
              (begin_step e line rt w)) as [_ Hev];
    [apply same_binding_refl|apply same_binding_trans
    |apply invoke_same_binding|].
  destruct (Hev _ He0) as (rt1 & Hrt1 & Hb1).
  assert (Hstep : dicts_kept (globals rt) w
            (exec_stmt load (run_with load resolve n) e (s (globals rt))
               (begin_step e line rt w)).2).
  { eapply dicts_kept_trans; [|exact Hex]. by apply dicts_kept_same. }
  destruct (exec_stmt load (run_with load resolve n) e (s (globals rt))
              (begin_step e line rt w)) as [[[]|x|] w']; simpl in *;
    [|done..].
  rewrite Hrt1.
  destruct (resolve rt1) as [|rt2|x] eqn:Hres; [done| |done].
  destruct Hb1 as (Hp1 & _ & Hg1 & _). simpl in Hp1, Hg1.
  destruct (resolve_same_binding rt1 rt2 Hres) as (Hp2 & _ & Hg2 & _).
  eapply dicts_kept_trans; [exact Hstep|].
  replace (globals rt) with (globals rt2) by congruence.
  eapply dicts_kept_trans;
    [apply (dicts_kept_same _ w' (set_engines (<[e:=rt2]> (engines w')) w'));
     done|].
  apply IH.
  - simpl. apply list_lookup_insert_eq. by eapply lookup_lt_Some.
  - by rewrite Hp2, Hp1.
Qed.

Lemma run_confined (n : nat) (c : eid) (w : World) (rtc : Runtime) :
  engines w !! c = Some rtc →
  confined_program (program rtc) →
  dicts_kept (globals rtc) w (run load n c w).2.
Proof.
  intros Hc Hpc. unfold run, run_with, start, bind.
  pose proof (call_dicts c (λ rt, (None, set_line_idx 0 rt)) w) as Hd.
  pose proof (call_lookup c (λ rt, (None, set_line_idx 0 rt)) w rtc Hc)
    as Hlk.
  destruct (call c (λ rt, (None, set_line_idx 0 rt)) w)
    as [[[]|x|] w1]; simpl in *; try (by apply dicts_kept_same).
  eapply dicts_kept_trans; [by apply dicts_kept_same|].
  by apply (run_loop_confined n c w1 _ Hlk).
Qed.
End Confined.

(** X8. An override that is a dict of the store and not empty isolates the
    nested run: when the steps of the loaded programs write only to the
    shared state they are called with, the nested run changes no dict of the
    store but the override, so that the shared state of the parent, when it
    is another dict, is after the nested run what it was before. *)
Theorem isolated_override_keeps_other_dicts (load : string → load_result)
    (n : nat) (e : eid) (f : string) (l : loc) (w : World) (rt : Runtime)
    (m : dict) :
  confined_files load →
  engines w !! e = Some rt →
  dicts w !! l = Some m →
  m ≠ ∅ →
  let out := run_file load (run load n) e f (Some l) w in
  (∀ d, d ≠ l → is_Some (dicts w !! d) → dicts out.2 !! d = dicts w !! d) ∧
  (l ≠ globals rt → is_Some (dicts w !! globals rt) →
   dicts out.2 !! globals rt = dicts w !! globals rt).
Proof.
  intros Hload He Hl Hm out.
  assert (Hkept : ∀ d, d ≠ l → is_Some (dicts w !! d) →
                       dicts out.2 !! d = dicts w !! d).
  { intros d Hne Hd. subst out.
    destruct (load f) as [| | |prog] eqn:Hf;
      try (unfold run_file; by rewrite Hf).
    rewrite (run_file_loaded load (run load n) e f (Some l) w prog rt l);
      [|done..|].
    2:{ simpl. rewrite Hl. rewrite bool_decide_eq_true_2; [done|].
        by apply map_size_non_empty_iff. }
    pose proof (run_confined load Hload n (length (engines w))
                  (with_new_engine (sub_runtime prog l e) w)
                  (sub_runtime prog l e)) as [_ Hk].
    { simpl. by apply list_lookup_middle. }
    { by eapply Hload. }
    simpl in Hk. apply Hk; [by apply lookup_lt_is_Some|done]. }
  split; [done|]. intros Hne. apply Hkept. congruence.
Qed.

Lemma subprog_file_confined : confined_files subprog_file.
Proof.
  intros f p Hf line s g Hs. unfold subprog_file in Hf.
  case_bool_decide; [|done]. simplify_eq.
  destruct (decide (line = 100%Z)) as [->|];
    [vm_compute in Hs; by simplify_eq|].
  destruct (decide (line = 110%Z)) as [->|];
    [vm_compute in Hs; by simplify_eq|].
  unfold subprog in Hs. simpl in Hs.
  by rewrite !lookup_insert_ne, lookup_empty in Hs.
Qed.

Lemma isolated_override_keeps_other_dicts_witness :
  let rt := fresh_runtime prog_nested 0 in
  let w := mkWorld [∅; {["k" := VInt 1]}] [rt] [] in
  let out := run_file subprog_file (run subprog_file 5) 0 "subprog.py"
               (Some 1) w in
  (∀ d, d ≠ 1 → is_Some (dicts w !! d) → dicts out.2 !! d = dicts w !! d) ∧
  (1 ≠ globals rt → is_Some (dicts w !! globals rt) →
   dicts out.2 !! globals rt = dicts w !! globals rt).
Proof.
  intros rt w.
  apply (isolated_override_keeps_other_dicts subprog_file 5 0 "subprog.py"
           1 w rt {["k" := VInt 1]});
    [apply subprog_file_confined | reflexivity | reflexivity | ].
  intros Hm. by apply (f_equal (.!! "k")) in Hm.
Defined.

(** With the override [{"k": 1}] the key of the nested run goes to the
    override, and the dict of the parent stays empty. *)
Example isolated_run :
  let rt := fresh_runtime prog_nested 0 in
  let w := mkWorld [∅; {["k" := VInt 1]}] [rt] [] in
  let out := run_file subprog_file (run subprog_file 5) 0 "subprog.py"
               (Some 1) w in
  out.1 = Done tt ∧
  dicts out.2 !! 0 = Some ∅ ∧
  dicts out.2 !! 1 ≫= (.!! "msg") = Some (VStr "hello from subprog").
Proof. vm_compute. done. Qed.

(** ** A run that does not end *)

Lemma exec_goto_known (load : string → load_result) (run : eid → M unit)
    (e : eid) (C : Z) (w : World) (rt : Runtime) :
  engines w !! e = Some rt →
  is_Some (program rt !! C) →
  exec_stmt load run e (Goto C Skip) w
  = (Done tt, set_engines (<[e := set_goto_line (Some C) rt]> (engines w)) w).
Proof.
  intros He [s Hs]. simpl. unfold bind, call, ret. rewrite He.
  unfold goto. by rewrite Hs.
Qed.

(** X9. Nothing but a halt, a return or the end of the line table ends a
    run: when the current line jumps to itself, the loop calls the step of
    that line again and again and no fuel is enough for it to return. *)
Theorem self_jump_never_ends (load : string → load_result) (n : nat)
    (e : eid) (w : World) (self : Runtime) (C : Z) :
  engines w !! e = Some self →
  lines self = sorted (program self) →
  lines self !! line_idx self = Some C →
  _halted self = false →
  jumps_to_itself (program self) C →
  (run_loop load resolve n e w).1 = OutOfFuel ∧
  visited (run_loop load resolve n e w).2 = visited w ++ replicate n (e, C).
Proof.
  revert w self. induction n as [|n IH];
    intros w self He Hl HC Hh (s & Hs & Hbody).
  { simpl. by rewrite app_nil_r. }
  rewrite (run_loop_iteration load resolve n e w self C s); try done.
  2:{ by eapply lookup_lt_Some. }
  rewrite Hbody.
  rewrite (exec_goto_known load (run_with load resolve n) e C
             (begin_step e C self w) (reset_signals self).2).
  2:{ simpl. apply list_lookup_insert_eq. by eapply lookup_lt_Some. }
  2:{ simpl. eauto. }
  set (r1 := set_goto_line (Some C) (reset_signals self).2).
  set (w1 := set_engines (<[e:=r1]> (engines (begin_step e C self w)))
               (begin_step e C self w)).
  assert (He1 : engines w1 !! e = Some r1).
  { subst w1. simpl. apply list_lookup_insert_eq.
    rewrite length_insert. by eapply lookup_lt_Some. }
  assert (Hres : resolve r1 = Continue (set_line_idx (line_idx self) r1)).
  { unfold resolve, jump_to. simpl. rewrite Hh.
    rewrite (list_index_lookup (lines self) C (line_idx self)); [done| |done].
    rewrite Hl. apply sorted_NoDup. }
  rewrite He1, Hres.
  destruct (IH (set_engines (<[e:=set_line_idx (line_idx self) r1]>
                               (engines w1)) w1)
               (set_line_idx (line_idx self) r1)) as [Hr Hv]; try done.
  { simpl. apply list_lookup_insert_eq. by eapply lookup_lt_Some. }
  { by exists s. }
  split; [done|]. rewrite Hv. simpl. by rewrite <- app_assoc.
Qed.

Lemma self_jump_never_ends_witness :
  let self := set_line_idx 1 (fresh_runtime prog_spin 0) in
  let w := mkWorld [∅] [self] [] in
  (run_loop no_files resolve 7 0 w).1 = OutOfFuel ∧
  visited (run_loop no_files resolve 7 0 w).2
  = visited w ++ replicate 7 (0, 20%Z).
Proof.
  intros self w.
  apply (self_jump_never_ends no_files 7 0 w self 20);
    [reflexivity | reflexivity | vm_compute; reflexivity | reflexivity | ].
  exists (λ g, Goto 20 Skip). split; [vm_compute; reflexivity|done].
Defined.

(** ** Runs without a shared state of the caller *)

Lemma run_program_done (load : string → load_result) (fuel : nat)
    (prog : ProgramType) (gd : option loc) (w : World) (g : loc) :
  (run_program load fuel prog gd w).1 = Done g →
  g = given_globals gd w ∧
  length (dicts (initial_store prog gd w))
  ≤ length (dicts (run_program load fuel prog gd w).2).
Proof.
  rewrite run_program_start.
  destruct (run_loop_same_binding load fuel (length (engines w))
              (initial_store prog gd w) _ (initial_store_lookup prog gd w))
    as (rt' & Hrt' & Hb).
  pose proof (run_loop_dicts_length load resolve fuel (length (engines w))
                (initial_store prog gd w)) as Hlen.
  destruct (run_loop load resolve fuel (length (engines w))
              (initial_store prog gd w)) as [[[]|x|] w2]; simpl in *;
    [|done..].
  rewrite Hrt'. simpl. intros [= <-].
  destruct Hb as (_ & _ & Hg & _). by split.
Qed.

(** X10. Two calls of [run_program] without a shared state do not share
    one: each gets a dict newly made, and the second is another dict than
    the first, which is still a dict of the store. *)
Theorem run_program_fresh_state_each_time (load1 load2 : string → load_result)
    (fuel1 fuel2 : nat) (prog1 prog2 : ProgramType) (w : World)
    (g1 g2 : loc) :
  (run_program load1 fuel1 prog1 None w).1 = Done g1 →
  (run_program load2 fuel2 prog2 None
     (run_program load1 fuel1 prog1 None w).2).1 = Done g2 →
  g1 ≠ g2 ∧
  dicts w !! g1 = None ∧
  is_Some (dicts (run_program load1 fuel1 prog1 None w).2 !! g1) ∧
  dicts (run_program load1 fuel1 prog1 None w).2 !! g2 = None.
Proof.
  intros H1 H2.
  destruct (run_program_done load1 fuel1 prog1 None w g1 H1) as [-> Hl1].
  destruct (run_program_done load2 fuel2 prog2 None _ g2 H2) as [-> _].
  simpl in *. rewrite length_app in Hl1. simpl in Hl1.
  split; [lia|]. split; [by apply lookup_ge_None|].
  split; [apply lookup_lt_is_Some; lia|by apply lookup_ge_None].
Qed.

Lemma run_program_fresh_state_each_time_witness :
  let w1 := (run_program no_files 4 prog_sequential None empty_world).2 in
  0 ≠ 1 ∧
  dicts empty_world !! 0 = None ∧
  is_Some (dicts w1 !! 0) ∧
  dicts w1 !! 1 = None.
Proof.
  apply (run_program_fresh_state_each_time no_files no_files 4 6
           prog_sequential prog_gosub_return empty_world 0 1);
    vm_compute; reflexivity.
Defined.

(** ** The scenarios of the test suite *)

(** test_goto: line 30 is skipped and [x] ends as 6. *)
Example goto_run :
  let out := run_program no_files 5 prog_goto None empty_world in
  out.1 = Done 0 ∧
  visited out.2 = [(0, 10%Z); (0, 20%Z); (0, 40%Z)] ∧
  dicts out.2 !! 0 ≫= (.!! "x") = Some (VInt 6).
Proof. vm_compute. done. Qed.

(** test_nested_gosubs: the order of execution is 10, 100, 200, 110, 20. *)
Example nested_gosubs_run :
  let out := run_program no_files 6 prog_nested_gosubs None empty_world in
  out.1 = Done 0 ∧
  visited out.2
  = [(0, 10%Z); (0, 100%Z); (0, 200%Z); (0, 110%Z); (0, 20%Z)] ∧
  stack <$> engines out.2 !! 0 = Some [].
Proof. vm_compute. done. Qed.

(** test_goto_loop: from [n = 0] the loop ends with [n = 3]. *)
Example goto_loop_run :
  let w := mkWorld [{["n" := VInt 0]}] [] [] in
  let out := run_program no_files 7 prog_goto_loop (Some 0) w in
  out.1 = Done 0 ∧
  dicts out.2 !! 0 ≫= (.!! "n") = Some (VInt 3).
Proof. vm_compute. done. Qed.

(** test_return_without_gosub: the RuntimeError comes out of
    [run_program]. *)
Example return_alone_run :
  (run_program no_files 3 prog_return_alone None empty_world).1
  = Raised ReturnWithoutGosub.
Proof. vm_compute. done. Qed.

(** * Programs without transfers of control: the walk over the table *)

Lemma Runtime_init_initial_store (prog : ProgramType) (gd : option loc)
    (w : World) :
  Runtime_init prog gd None w
  = (Done (length (engines w)), initial_store prog gd w).
Proof.
  unfold Runtime_init, bind, ret, new_dict, initial_store, given_globals.
  by destruct gd.
Qed.

(** A body that only reads and writes the shared state completes, and
    leaves the engine objects as they were. *)
Lemma state_only_exec (load : string → load_result) (run : eid → M unit)
    (e : eid) (g : loc) (s : stmt) (w : World) :
  state_only g s →
  is_Some (dicts w !! g) →
  ∃ w', exec_stmt load run e s w = (Done tt, w') ∧
        engines w' = engines w ∧ visited w' = visited w ∧
        is_Some (dicts w' !! g).
Proof.
  revert w.
  induction s as [|line k IH|line k IH|k IH|k IH|f gd k IH|d key v k IH
                 |d k IH|k IH|tag|body IHb catches handler IHh k IHk];
    intros w Hs Hg; simpl in Hs; try done.
  - by exists w.
  - destruct Hs as [-> Hk]. destruct Hg as [m Hm].
    destruct (IH (set_dicts (<[g:=<[key:=v]> m]> (dicts w)) w) Hk)
      as (w' & Hex & He & Hv & Hd).
    { simpl. rewrite list_lookup_insert_eq; [done|].
      by eapply lookup_lt_Some. }
    exists w'. split; [|done]. simpl. unfold setitem, bind, get_dict.
    by rewrite Hm.
  - destruct Hs as [-> Hk]. destruct Hg as [m Hm].
    destruct (IH m w (Hk m)) as (w' & Hex & He & Hv & Hd); [by eauto|].
    exists w'. split; [|done]. simpl. unfold bind, get_dict. by rewrite Hm.
  - destruct (IH (length (dicts w)) (set_dicts (dicts w ++ [∅]) w)
                (Hs _)) as (w' & Hex & He & Hv & Hd).
    { simpl. destruct Hg as [m Hm]. exists m. by apply lookup_app_l_Some. }
    exists w'. split; [|done]. simpl. unfold bind, new_dict. exact Hex.
  - destruct Hs as [Hb Hk].
    destruct (IHb w Hb Hg) as (w1 & Hex1 & He1 & Hv1 & Hd1).
    destruct (IHk w1 Hk Hd1) as (w' & Hex & He & Hv & Hd).
    exists w'. simpl. rewrite Hex1. split; [done|].
    split; [congruence|]. split; [congruence|done].
Qed.

Section Walk.
Variable load : string → load_result.

(** The walk, one line unfolded. *)
Lemma for_each_line_cons (n : nat) (e : eid) (line : Z) (rest : list Z)
    (w : World) (self : Runtime) (s : nat → stmt) :
  engines w !! e = Some self →
  program self !! line = Some s →
  for_each_line load (S n) e (line :: rest) w =
    match exec_stmt load (run load n) e (s (globals self))
            (begin_step e line self w) with
    | (Done _, w') =>
        match rest with
        | [] => (Done tt, w')
        | _ :: _ =>
            (call e (λ rt, (None, set_line_idx (line_idx rt + 1) rt)) ;;
             for_each_line load n e rest) w'
        end
    | (Raised x, w') => (Raised x, w')
    | (OutOfFuel, w') => (OutOfFuel, w')
    end.
Proof.
  intros He Hs. cbn [for_each_line].
  unfold bind at 1. unfold get_engine at 1. rewrite He.
  unfold bind at 1. unfold call at 1. rewrite He. simpl fst. cbv iota.
  rewrite Hs. unfold bind at 1. unfold bind at 1. unfold begin_step.
  cbn [reset_signals snd].
  match goal with
  | |- context [exec_stmt ?l ?r ?e0 ?b ?w0] =>
      destruct (exec_stmt l r e0 b w0) as [[[]|x|] w']
  end; [|done..].
  by destruct rest.
Qed.

Variable prog : ProgramType.
Hypothesis prog_no_transfer :
  ∀ line s g, prog !! line = Some s → no_transfer (s g).

(** For a program without transfers of control the loop of [run] is the
    walk over what is left of the line table. *)
Lemma run_loop_for_each_line (n : nat) (e : eid) (w : World)
    (self : Runtime) :
  engines w !! e = Some self →
  program self = prog →
  lines self = sorted prog →
  _halted self = false →
  drop (line_idx self) (lines self) ≠ [] ∨ n ≠ 0 →
  run_loop load resolve n e w
  = for_each_line load n e (drop (line_idx self) (lines self)) w.
Proof.
  revert w self. induction n as [|n IH]; intros w self He Hp Hl Hh Hne.
  { destruct Hne as [Hne|]; [|done].
    by destruct (drop (line_idx self) (lines self)). }
  destruct (decide (line_idx self < length (lines self))) as [Hidx|Hidx].
  2:{ rewrite (run_loop_exit load resolve n e w self) by (done || by left).
      by rewrite drop_ge by lia. }
  destruct (lookup_lt_is_Some_2 _ _ Hidx) as [line Hline].
  assert (is_Some (prog !! line)) as [s Hs].
  { apply sorted_elem_of. rewrite <- Hl.
    eapply list_elem_of_lookup_2. eauto. }
  rewrite (run_loop_iteration load resolve n e w self line s)
    by (done || by rewrite Hp).
  rewrite (drop_S _ _ _ Hline).
  rewrite (for_each_line_cons n e line _ w self s) by (done || by rewrite Hp).
  unfold run.
  assert (He0 : engines (begin_step e line self w) !! e
                = Some (reset_signals self).2).
  { simpl. apply list_lookup_insert_eq. by eapply lookup_lt_Some. }
  pose proof (no_transfer_exec load resolve n e (s (globals self))
                (begin_step e line self w) _ (prog_no_transfer _ _ _ Hs) He0)
    as He1.
  destruct (exec_stmt load (run_with load resolve n) e (s (globals self))
              (begin_step e line self w)) as [[[]|x|] w']; simpl in He1;
    [|done..].
  rewrite He1, resolve_quiet by done.
  unfold advance. cbn [line_idx lines reset_signals snd set_returning
                       set_goto_line].
  case_bool_decide as Hnext.
  - destruct (drop (S (line_idx self)) (lines self)) as [|l2 rest2] eqn:Hd.
    { apply (f_equal length) in Hd. rewrite length_drop in Hd.
      simpl in Hd. lia. }
    unfold bind, call. rewrite He1. simpl fst. cbv iota.
    cbn [line_idx reset_signals snd set_returning set_goto_line].
    rewrite <- Hd.
    set (self2 := set_line_idx (line_idx self + 1)
                    (set_returning false (set_goto_line None self))).
    replace (S (line_idx self)) with (line_idx self2)
      by (subst self2; simpl; lia).
    change (lines self) with (lines self2).
    apply IH; try done.
    + simpl. apply list_lookup_insert_eq. by eapply lookup_lt_Some.
    + left. subst self2. simpl.
      replace (line_idx self + 1) with (S (line_idx self)) by lia.
      by rewrite Hd.
  - by rewrite drop_ge by lia.
Qed.

(** The walk over lines whose steps only read and write the shared state
    goes to its end: every step is called, and the engine is left on the
    last line with no signal set. *)
Lemma for_each_line_state_only (g : loc) (ls : list Z) (n : nat) (e : eid)
    (w : World) (self : Runtime) :
  engines w !! e = Some self →
  program self = prog →
  globals self = g →
  is_Some (dicts w !! g) →
  (∀ line, line ∈ ls → ∃ s, prog !! line = Some s ∧ state_only g (s g)) →
  ls ≠ [] →
  length ls ≤ n →
  ∃ w', for_each_line load n e ls w = (Done tt, w') ∧
        visited w' = visited w ++ map (pair e) ls ∧
        engines w' !! e
        = Some (set_line_idx (line_idx self + (length ls - 1))
                  (reset_signals self).2).
Proof.
  revert n w self.
  induction ls as [|line rest IH]; intros n w self He Hp Hg Hd Hsteps Hne Hn;
    [done|].
  destruct n as [|n]; [simpl in Hn; lia|].
  destruct (Hsteps line) as (s & Hs & Hso); [by left|].
  rewrite (for_each_line_cons n e line rest w self s)
    by (done || by rewrite Hp).
  rewrite Hg.
  destruct (state_only_exec load (run load n) e g (s g)
              (begin_step e line self w) Hso) as (w1 & -> & He1 & Hv1 & Hd1).
  { simpl. done. }
  assert (Hlk1 : engines w1 !! e = Some (reset_signals self).2).
  { rewrite He1. simpl. apply list_lookup_insert_eq.
    by eapply lookup_lt_Some. }
  destruct rest as [|l2 rest2].
  - exists w1. split; [done|]. split; [by rewrite Hv1|].
    rewrite Hlk1. f_equal. simpl.
    replace (line_idx self + 0) with (line_idx self) by lia.
    by destruct self.
  - unfold bind, call. rewrite Hlk1. simpl fst. cbv iota.
    set (self2 := set_line_idx (line_idx (reset_signals self).2 + 1)
                    (reset_signals self).2).
    destruct (IH n (set_engines (<[e:=self2]> (engines w1)) w1) self2)
      as (w' & Hex & Hv & Hlk); try done.
    + simpl. apply list_lookup_insert_eq. by eapply lookup_lt_Some.
    + intros l Hl. apply Hsteps. by right.
    + simpl in *. lia.
    + exists w'. split; [done|]. split.
      * rewrite Hv. simpl. rewrite Hv1. simpl. by rewrite <- app_assoc.
      * rewrite Hlk. f_equal. subst self2. simpl.
        unfold set_line_idx. simpl. f_equal. lia.
Qed.
End Walk.

(** C7. Let the steps of a program make none of the calls goto, gosub,
    return and halt.  Then [run_program] is the walk over the line table:
    for each line of [sorted(program)], in that order, the signals are reset
    and the step of the line is called, once, with the same store, the same
    outcome and the same fuel at every point; and the line table holds
    every line of the program, in strictly ascending order.  When moreover
    the steps only read and write the shared state, the run completes with
    a fuel of the number of lines: it returns the shared state, every line
    was called once in ascending order, and the engine is left unhalted on
    the last line, with no signal set and an empty call stack: it fell off
    the end. *)
Theorem transfer_free_program_visits_all_lines (load : string → load_result)
    (prog : ProgramType) (gd : option loc) (w : World) (n : nat) :
  (∀ line s g, prog !! line = Some s → no_transfer (s g)) →
  let e := length (engines w) in
  let g := given_globals gd w in
  run_program load (S n) prog gd w = visit_all_lines load (S n) prog gd w ∧
  StronglySorted Z.lt (sorted prog) ∧
  (∀ l, l ∈ sorted prog ↔ is_Some (prog !! l)) ∧
  ((∀ line s, prog !! line = Some s → state_only g (s g)) →
   (∀ l, gd = Some l → is_Some (dicts w !! l)) →
   length (sorted prog) ≤ S n →
   ∃ w', run_program load (S n) prog gd w = (Done g, w') ∧
         visited w' = visited w ++ map (pair e) (sorted prog) ∧
         engines w' !! e
         = Some (set_line_idx (length (sorted prog) - 1)
                   (fresh_runtime prog g))).
Proof.
  intros Hnt e g.
  pose proof (initial_store_lookup prog gd w) as Hlk. fold e g in Hlk.
  assert (Hloop : run_loop load resolve (S n) e (initial_store prog gd w)
            = for_each_line load (S n) e (sorted prog)
                (initial_store prog gd w)).
  { rewrite (run_loop_for_each_line load prog Hnt (S n) e _
               (fresh_runtime prog g)); try done. by right. }
  assert (Hwalk : visit_all_lines load (S n) prog gd w =
            match for_each_line load (S n) e (sorted prog)
                    (initial_store prog gd w) with
            | (Done _, w2) =>
                match engines w2 !! e with
                | Some self => (Done (globals self), w2)
                | None => (Raised (BadHandle e), w2)
                end
            | (Raised x, w2) => (Raised x, w2)
            | (OutOfFuel, w2) => (OutOfFuel, w2)
            end).
  { unfold visit_all_lines. unfold bind at 1.
    rewrite Runtime_init_initial_store. fold e. unfold bind at 1.
    destruct (for_each_line load (S n) e (sorted prog)
                (initial_store prog gd w)) as [[[]|x|] w2]; [|done..].
    unfold bind, get_engine, ret. by destruct (engines w2 !! e). }
  assert (Hrun : run_program load (S n) prog gd w
                 = visit_all_lines load (S n) prog gd w).
  { rewrite run_program_start, Hwalk. fold e. by rewrite Hloop. }
  split; [done|]. split; [apply sorted_strictly_ascending|].
  split; [apply sorted_elem_of|].
  intros Hso Hgd Hfuel. rewrite Hrun, Hwalk.
  assert (Hdict : is_Some (dicts (initial_store prog gd w) !! g)).
  { subst g. unfold initial_store, given_globals. destruct gd as [l|]; simpl.
    - by apply Hgd.
    - exists ∅. by apply list_lookup_middle. }
  destruct (sorted prog) as [|l0 rest0] eqn:Hsorted.
  - exists (initial_store prog gd w). cbn [for_each_line]. unfold ret.
    rewrite Hlk. split; [done|]. split; [|done].
    rewrite app_nil_r. unfold initial_store. by destruct gd.
  - destruct (for_each_line_state_only load prog g (l0 :: rest0) (S n) e
                (initial_store prog gd w) (fresh_runtime prog g))
      as (w' & Hex & Hv & He'); try done.
    { intros line Hline.
      assert (is_Some (prog !! line)) as [s Hs]
        by (apply sorted_elem_of; by rewrite Hsorted).
      exists s. split; [done|]. by apply (Hso line). }
    exists w'. rewrite Hex, He'. simpl.
    split; [done|]. split; [|done].
    rewrite Hv. f_equal. unfold initial_store. by destruct gd.
Qed.

Lemma transfer_free_program_visits_all_lines_witness :
  let out := run_program no_files 3 prog_sequential None empty_world in
  out = visit_all_lines no_files 3 prog_sequential None empty_world ∧
  ∃ w', out = (Done 0, w') ∧
        visited w' = visited empty_world ++ map (pair 0) (sorted prog_sequential) ∧
        engines w' !! 0
        = Some (set_line_idx (length (sorted prog_sequential) - 1)
                  (fresh_runtime prog_sequential 0)).
Proof.
  assert (Hsteps : ∀ line s g, prog_sequential !! line = Some s →
                     no_transfer (s g) ∧ state_only g (s g)).
  { intros line s g Hs.
    destruct (decide (line = 10%Z)) as [->|];
      [vm_compute in Hs; by simplify_eq|].
    destruct (decide (line = 20%Z)) as [->|];
      [vm_compute in Hs; by simplify_eq|].
    destruct (decide (line = 30%Z)) as [->|];
      [vm_compute in Hs; by simplify_eq|].
    unfold prog_sequential in Hs. simpl in Hs.
    by rewrite !lookup_insert_ne, lookup_empty in Hs. }
  destruct (transfer_free_program_visits_all_lines no_files prog_sequential
              None empty_world 2) as (Hwalk & _ & _ & Hcomplete).
  { intros line s g Hs. by apply (Hsteps line s g). }
  split; [exact Hwalk|]. apply Hcomplete.
  - intros line s Hs. by apply (Hsteps line s).
  - by intros l.
  - vm_compute. lia.
Defined.
